(** * CyberGuardLog: detection and notification pipeline

    A shallow embedding of the server side of the repository:

    - [server/storage-db.ts] (class [DatabaseStorage]): [createLog],
      [detectAnomalies], [createAlert], [acknowledgeAlert], [resolveAlert],
      [evaluateRulesForLog], [evaluateConditions], [evaluateCondition];
    - [server/openai.ts]: [analyzeLogForAnomalies];
    - [server/websocket.ts] (class [LogStreamManager]): the subscriber
      registry and the two broadcast methods;
    - [server/routes.ts]: the [POST /api/logs] and [POST /api/alerts]
      handlers and the two status routes.

    JavaScript strings are modelled by [string], read as sequences of code
    units below 256.  JavaScript numbers are IEEE 754 binary64 values, the
    kernel's [float].  Asynchronous code is modelled by a state-and-exception
    monad over a [World].  A computation of the model is the path of one
    asynchronous function from its call to its settlement, with [await]
    as sequencing; what the world's trace records is the order in which
    the effects on that path are issued.  A promise that is started but
    not awaited runs inside its caller up to its first [await]; what is
    left of it is recorded in the world as a pending promise, which the
    event loop resumes in steps of its own ([Storage.resume]), one [await]
    at a time and in no fixed order.  Module [EventLoop] gives the run of
    the ingestion request with such steps interleaved at its [await]s. *)

From Stdlib Require Import ZArith Floats Ascii String.
From stdpp Require Import base strings pretty gmap list.

Local Open Scope string_scope.
Local Open Scope list_scope.

(** ** JavaScript string primitives *)

Module JS.

(** [String.prototype.includes]: substring search. *)
Fixpoint includes (s sub : string) : bool :=
  if String.prefix sub s then true
  else match s with
       | EmptyString => false
       | String _ s' => includes s' sub
       end.

(** [x || undefined] and truthiness of an optional string: [null],
    [undefined] and the empty string are falsy. *)
Definition truthy (v : option string) : bool :=
  match v with
  | Some s => negb (String.eqb s "")
  | None => false
  end.

Definition or_undefined (v : option string) : option string :=
  if truthy v then v else None.

(** [x || d] on an optional string. *)
Definition or_else (v : option string) (d : string) : string :=
  match v with
  | Some s => if String.eqb s "" then d else s
  | None => d
  end.

(** [Array.prototype.includes] on an array of strings. *)
Fixpoint array_includes (l : list string) (v : string) : bool :=
  match l with
  | [] => false
  | x :: l' => String.eqb x v || array_includes l' v
  end.

(** [Array.prototype.join(",")], which is what [String(array)] yields. *)
Fixpoint join_comma (l : list string) : string :=
  match l with
  | [] => ""
  | [x] => x
  | x :: l' => x +:+ "," +:+ join_comma l'
  end.

(** [Math.min] and [Math.max] on two numbers: NaN is contagious, and of
    two zeros the negative one is the smaller. *)
Definition Math_min (a b : float) : float :=
  if PrimFloat.is_nan a || PrimFloat.is_nan b then PrimFloat.nan
  else if PrimFloat.ltb a b then a
  else if PrimFloat.ltb b a then b
  else if PrimFloat.get_sign a then a else b.

Definition Math_max (a b : float) : float :=
  if PrimFloat.is_nan a || PrimFloat.is_nan b then PrimFloat.nan
  else if PrimFloat.ltb a b then b
  else if PrimFloat.ltb b a then a
  else if PrimFloat.get_sign a then b else a.

(** [a > b] is [b < a]. *)
Definition gt (a b : float) : bool := PrimFloat.ltb b a.

End JS.

(** ** Regular expression literals

    The seven detector patterns are regular expression literals with the
    [i] flag, built from literal characters, [.], [*] and [|].  They are
    embedded as syntax trees and run by derivatives. *)

Module RegExp.

Inductive regex : Type :=
| Never : regex
| Eps : regex
| Class (p : ascii -> bool) : regex
| Seq (r1 r2 : regex) : regex
| Or (r1 r2 : regex) : regex
| Star (r : regex) : regex.

(** Canonicalisation under the [i] flag (without [u]), as far as the
    patterns need it: they hold ASCII characters only, ASCII letters are
    upper-cased, and a code unit of 128 or more never canonicalises to an
    ASCII one. *)
Definition upper (a : ascii) : ascii :=
  let n := nat_of_ascii a in
  if (97 <=? n)%nat && (n <=? 122)%nat then ascii_of_nat (n - 32) else a.

(** A pattern character, compared after canonicalisation. *)
Definition Chr (c : ascii) : regex :=
  Class (fun a => Ascii.eqb (upper a) (upper c)).

(** [.]: any code unit but a line terminator (LF and CR below 256). *)
Definition Dot : regex :=
  Class (fun a => negb (Ascii.eqb a "010"%char || Ascii.eqb a "013"%char)).

Fixpoint lit (s : string) : regex :=
  match s with
  | EmptyString => Eps
  | String c EmptyString => Chr c
  | String c s' => Seq (Chr c) (lit s')
  end.

Fixpoint nullable (r : regex) : bool :=
  match r with
  | Never => false
  | Eps => true
  | Class _ => false
  | Seq r1 r2 => nullable r1 && nullable r2
  | Or r1 r2 => nullable r1 || nullable r2
  | Star _ => true
  end.

Fixpoint deriv (a : ascii) (r : regex) : regex :=
  match r with
  | Never => Never
  | Eps => Never
  | Class p => if p a then Eps else Never
  | Seq r1 r2 =>
      if nullable r1 then Or (Seq (deriv a r1) r2) (deriv a r2)
      else Seq (deriv a r1) r2
  | Or r1 r2 => Or (deriv a r1) (deriv a r2)
  | Star r1 => Seq (deriv a r1) (Star r1)
  end.

(** Some prefix of [s] matches [r]. *)
Fixpoint match_prefix (r : regex) (s : string) : bool :=
  nullable r ||
  match s with
  | EmptyString => false
  | String a s' => match_prefix (deriv a r) s'
  end.

(** [p1.*p2.*...]: literal pieces separated by [.*]. *)
Fixpoint pieces (l : list string) : regex :=
  match l with
  | [] => Eps
  | [p] => lit p
  | p :: l' => Seq (lit p) (Seq (Star Dot) (pieces l'))
  end.

(** [a1|a2|...]: alternatives, each a run of pieces. *)
Fixpoint alts (l : list (list string)) : regex :=
  match l with
  | [] => Never
  | [a] => pieces a
  | a :: l' => Or (pieces a) (alts l')
  end.

(** [RegExp.prototype.test] without the [g] and [y] flags: a match
    starting at some index of [s]. *)
Fixpoint test (r : regex) (s : string) : bool :=
  match_prefix r s ||
  match s with
  | EmptyString => false
  | String _ s' => test r s'
  end.

End RegExp.

(** ** Data model ([shared/schema.ts], as the repository's notes give it)

    Column types are kept: [varchar] and [text] columns are strings,
    nullable columns are options.  Primary keys ([gen_random_uuid()]) are
    modelled by a counter and timestamps by a clock reading. *)

Module InsertLog.
Record t := mk {
  level : string;
  source : string;
  ipAddress : option string;
  eventType : string;
  message : string;
  metadata : option string;
}.
End InsertLog.

Module Log.
Record t := mk {
  id : nat;
  timestamp : nat;
  level : string;
  source : string;
  ipAddress : option string;
  eventType : string;
  message : string;
  metadata : option string;
}.
End Log.

Module InsertAlert.
(** [status] has a column default, so it is optional on insertion. *)
Record t := mk {
  severity : string;
  title : string;
  description : string;
  source : string;
  ipAddress : option string;
  status : option string;
}.
End InsertAlert.

Module Alert.
Record t := mk {
  id : nat;
  timestamp : nat;
  severity : string;
  title : string;
  description : string;
  source : string;
  ipAddress : option string;
  status : string;
  acknowledgedAt : option nat;
  resolvedAt : option nat;
}.
End Alert.

Module AlertingRule.
Record t := mk {
  id : nat;
  name : string;
  description : option string;
  condition : string;
  severity : string;
  enabled : bool;
  createdAt : nat;
  updatedAt : nat;
}.
End AlertingRule.

Module RuleCondition.
(** [value: string | string[]] *)
Inductive value_t : Type :=
| Str (s : string)
| Arr (l : list string).

(** [type] and [operator] are read from stored JSON, so they range over
    all strings and not only over the declared literals. *)
Record t := mk {
  type : string;
  operator : string;
  value : value_t;
}.

(** [String(cond.value)] *)
Definition String_value (v : value_t) : string :=
  match v with
  | Str s => s
  | Arr l => JS.join_comma l
  end.
End RuleCondition.

Module RuleEvaluationContext.
Record t := mk {
  ip : option string;
  eventType : string;
  severity : string;
  message : string;
  source : string;
}.
End RuleEvaluationContext.

(** ** The world the server runs in *)

Module WebSocket.
Inductive readyState_t : Type := CONNECTING | OPEN | CLOSING | CLOSED.

#[global] Instance readyState_eq_dec : EqDecision readyState_t.
Proof. solve_decision. Defined.

Inductive payload : Type :=
| OfLog (l : Log.t)
| OfAlert (a : Alert.t).

(** What [JSON.stringify({ type, data, timestamp })] serialises. *)
Record message := mkMessage {
  type : string;
  data : payload;
  timestamp : nat;
}.

(** A connection: its state, and what [send] has written to it, oldest
    first. *)
Record t := mk {
  readyState : readyState_t;
  sent : list message;
}.

Definition send (m : message) (ws : t) : t :=
  {| readyState := readyState ws; sent := sent ws ++ [m] |}.
End WebSocket.

Record LogSubscriber := mkLogSubscriber {
  ws : WebSocket.t;
  id : string;
}.

(** The [Map] of subscribers is a finite map: each connection keeps its
    own record of what was sent to it, so the order in which [forEach]
    visits the entries is immaterial.  [wsServer] is [true] when the field
    is not [null]. *)
Record LogStreamManager := mkLogStreamManager {
  subscribers : gmap string LogSubscriber;
  wsServer : bool;
}.

(** What [chat.completions.create] and the parse of its content come to:
    the request rejects, times out or returns unparseable content, or it
    yields an object whose [isAnomalous] is truthy or not and whose
    [confidence || 0] has the given numeric value. *)
Inductive Completion : Type :=
| Rejected
| Parsed (isAnomalous : bool) (confidence : float) (analysis : option string).

Record Db := mkDb {
  logs : list Log.t;                     (* newest first *)
  alerts : gmap nat Alert.t;             (* rows by primary key *)
  alertingRules : list AlertingRule.t;   (* in the order the query returns them *)
  next_id : nat;
}.

Inductive ResBody : Type :=
| JsonLog (l : Log.t)
| JsonAlert (a : Alert.t)
| JsonError (error : string).

Inductive Statement : Type :=
| InsertIntoLogs
| InsertIntoAlerts
| SelectAlerts
| UpdateAlerts
| SelectRules.

Inductive Event : Type :=
| DbInsertLog (l : Log.t)
| DbInsertAlert (a : Alert.t)
| DbSelectRules
| DbUpdateAlert (id : nat) (status : string)
| DbFailure (s : Statement)
| ScorerCall (logMessage logContext : string)
| Broadcast (m : WebSocket.message)
| ConsoleError (what : string)
| Response (status : nat) (body : ResBody).

(** A [detectAnomalies] promise that has not settled, by the [await] it
    is suspended at and by what that [await] is going to receive: the
    [await] of [analyzeLogForAnomalies], with the two locals of the
    detector loop and with the reply of the remote service ([None] when
    no client is configured and the function has returned without a
    request), or the [await] of [createAlert], with the row that the
    insertion returns ([None] when the insertion is rejected). *)
Inductive Detection : Type :=
| AwaitsAnalysis (log : Log.t) (alertTriggered : bool) (detectedSeverity : string)
    (reply : option Completion)
| AwaitsAlert (log : Log.t) (inserted : option Alert.t).

Record World := mkWorld {
  db : Db;
  faults : list bool;        (* per database statement: does it reject? *)
  openai : option (string → string → Completion);
  logStreamManager : LogStreamManager;
  now : nat;
  pending : list Detection;  (* [detectAnomalies] promises not yet settled *)
  trace : list Event;        (* oldest first *)
}.

Definition set_db (d : Db) (w : World) : World :=
  mkWorld d (faults w) (openai w) (logStreamManager w) (now w) (pending w) (trace w).
Definition set_faults (fs : list bool) (w : World) : World :=
  mkWorld (db w) fs (openai w) (logStreamManager w) (now w) (pending w) (trace w).
Definition set_logStreamManager (m : LogStreamManager) (w : World) : World :=
  mkWorld (db w) (faults w) (openai w) m (now w) (pending w) (trace w).
Definition set_pending (p : list Detection) (w : World) : World :=
  mkWorld (db w) (faults w) (openai w) (logStreamManager w) (now w) p (trace w).
Definition set_trace (t : list Event) (w : World) : World :=
  mkWorld (db w) (faults w) (openai w) (logStreamManager w) (now w) (pending w) t.

(** ** Promises as a state-and-exception monad

    A computation runs in a world and either returns or throws; the world
    it leaves behind is kept in both cases, as effects performed before a
    rejection are not undone.  [await p] followed by the rest of the
    function body is [x ← p; rest]. *)

Inductive exn : Type := ZodError | DbError | SyntaxError | ApiError.

Inductive Outcome (A : Type) : Type :=
| Ok (a : A)
| Throw (e : exn).
Arguments Ok {A} a.
Arguments Throw {A} e.

Definition M (A : Type) : Type := World → Outcome A * World.

#[global] Instance M_ret : MRet M := λ A a w, (Ok a, w).

#[global] Instance M_bind : MBind M := λ A B f m w,
  match m w with
  | (Ok a, w') => f a w'
  | (Throw e, w') => (Throw e, w')
  end.

#[global] Instance M_throw : MThrow exn M := λ A e w, (Throw e, w).

(** [try { body } catch (e) { handler }] *)
Definition try_catch {A} (body : M A) (handler : exn → M A) : M A := λ w,
  match body w with
  | (Ok a, w') => (Ok a, w')
  | (Throw e, w') => handler e w'
  end.

(** [for (const x of l) { body }] *)
Fixpoint for_of {A} (l : list A) (body : A → M unit) : M unit :=
  match l with
  | [] => mret tt
  | x :: l' => body x ;; for_of l' body
  end.

Definition gets {A} (f : World → A) : M A := λ w, (Ok (f w), w).
Definition modify (f : World → World) : M unit := λ w, (Ok tt, f w).
Definition emit (e : Event) : M unit := modify (λ w, set_trace (trace w ++ [e]) w).
Definition console_error (what : string) : M unit := emit (ConsoleError what).

(** One statement sent to the database: it rejects when the next fault
    flag says so. *)
Definition db_statement (s : Statement) : M unit := λ w,
  match faults w with
  | true :: fs => (emit (DbFailure s) ;; mthrow DbError) (set_faults fs w)
  | false :: fs => (Ok tt, set_faults fs w)
  | [] => (Ok tt, w)
  end.

(** ** [server/openai.ts] *)

Record Analysis := mkAnalysis {
  isAnomalous : bool;
  confidence : float;
  analysis : string;
}.

Definition analyzeLogForAnomalies (logMessage logContext : string) : M Analysis :=
  client ← gets openai;
  match client with
  | None => mret (mkAnalysis false 0 "AI analysis unavailable")
  | Some create =>
      try_catch
        (emit (ScorerCall logMessage logContext) ;;
         match create logMessage logContext with
         | Rejected => mthrow ApiError
         | Parsed anomalous conf text =>
             mret (mkAnalysis anomalous
                     (JS.Math_max 0 (JS.Math_min 1 conf))
                     (JS.or_else text "No analysis available"))
         end)
        (λ error,
           console_error "OpenAI analysis error:" ;;
           mret (mkAnalysis false 0 "AI analysis failed"))
  end.

(** The same function in the two segments that its [await] separates.
    Up to the [await]: without a client the function returns at once;
    with one the request is issued, and what the service is going to
    answer is what the [await] will receive. *)
Definition analyzeLogForAnomalies_call (logMessage logContext : string)
    : M (option Completion) :=
  client ← gets openai;
  match client with
  | None => mret None
  | Some create =>
      emit (ScorerCall logMessage logContext) ;;
      mret (Some (create logMessage logContext))
  end.

(** From the [await] on. *)
Definition analyzeLogForAnomalies_resume (reply : option Completion) : M Analysis :=
  match reply with
  | None => mret (mkAnalysis false 0 "AI analysis unavailable")
  | Some Rejected =>
      console_error "OpenAI analysis error:" ;;
      mret (mkAnalysis false 0 "AI analysis failed")
  | Some (Parsed anomalous conf text) =>
      mret (mkAnalysis anomalous
              (JS.Math_max 0 (JS.Math_min 1 conf))
              (JS.or_else text "No analysis available"))
  end.

(** ** [server/websocket.ts] *)

Module Stream.

Definition set_subscribers (s : gmap string LogSubscriber) (w : World) : World :=
  set_logStreamManager (mkLogStreamManager s (wsServer (logStreamManager w))) w.

(** [initialize]: the server is created; the connection handler is
    [on_connection] below. *)
Definition initialize : M unit :=
  modify (λ w, set_logStreamManager
                 (mkLogStreamManager (subscribers (logStreamManager w)) true) w).

(** The ["connection"] handler, for a socket [sock] and the identifier
    drawn for it. *)
Definition on_connection (sock : WebSocket.t) (subscriberId : string) : M unit :=
  modify (λ w, set_subscribers
                 (<[subscriberId := mkLogSubscriber sock subscriberId]>
                    (subscribers (logStreamManager w))) w).

(** The ["close"] handler of a subscriber. *)
Definition on_close (subscriberId : string) : M unit :=
  modify (λ w, set_subscribers
                 (delete subscriberId (subscribers (logStreamManager w))) w).

(** The ["error"] handler of a subscriber. *)
Definition on_error (subscriberId : string) : M unit :=
  console_error "WebSocket error:" ;;
  modify (λ w, set_subscribers
                 (delete subscriberId (subscribers (logStreamManager w))) w).

(** The body of the [forEach] callback. *)
Definition deliver (m : WebSocket.message) (s : LogSubscriber) : LogSubscriber :=
  if decide (WebSocket.readyState (ws s) = WebSocket.OPEN)
  then mkLogSubscriber (WebSocket.send m (ws s)) (id s)
  else s.

Definition broadcast (type : string) (data : WebSocket.payload) : M unit :=
  server ← gets (λ w, wsServer (logStreamManager w));
  if negb server then mret tt
  else
    stamp ← gets now;
    let message := WebSocket.mkMessage type data stamp in
    emit (Broadcast message) ;;
    modify (λ w, set_subscribers
                   (deliver message <$> subscribers (logStreamManager w)) w).

Definition broadcastLogCreated (log : Log.t) : M unit :=
  broadcast "log_created" (WebSocket.OfLog log).

Definition broadcastAlertCreated (alert : Alert.t) : M unit :=
  broadcast "alert_created" (WebSocket.OfAlert alert).

End Stream.

(** ** [server/storage-db.ts]: logs, alerts and the heuristic detectors *)

Module Storage.

Definition set_alerts (a : gmap nat Alert.t) (d : Db) : Db :=
  mkDb (logs d) a (alertingRules d) (next_id d).

(** The row an insertion makes: the key and the timestamp are column
    defaults, and so is the status [active] of an alert. *)
Definition log_row (insertLog : InsertLog.t) (id stamp : nat) : Log.t :=
  Log.mk id stamp
    (InsertLog.level insertLog) (InsertLog.source insertLog)
    (InsertLog.ipAddress insertLog) (InsertLog.eventType insertLog)
    (InsertLog.message insertLog) (InsertLog.metadata insertLog).

Definition alert_row (insertAlert : InsertAlert.t) (id stamp : nat) : Alert.t :=
  Alert.mk id stamp
    (InsertAlert.severity insertAlert) (InsertAlert.title insertAlert)
    (InsertAlert.description insertAlert) (InsertAlert.source insertAlert)
    (InsertAlert.ipAddress insertAlert)
    (default "active" (InsertAlert.status insertAlert))
    None None.

(** [db.insert(logs).values(insertLog).returning()] *)
Definition insert_log (insertLog : InsertLog.t) : M Log.t :=
  db_statement InsertIntoLogs ;;
  d ← gets db;
  stamp ← gets now;
  let log := log_row insertLog (next_id d) stamp in
  modify (set_db (mkDb (log :: logs d) (alerts d) (alertingRules d) (S (next_id d)))) ;;
  emit (DbInsertLog log) ;;
  mret log.

(** [db.insert(alerts).values(insertAlert).returning()] *)
Definition insert_alert (insertAlert : InsertAlert.t) : M Alert.t :=
  db_statement InsertIntoAlerts ;;
  d ← gets db;
  stamp ← gets now;
  let alert := alert_row insertAlert (next_id d) stamp in
  modify (set_db (mkDb (logs d) (<[next_id d := alert]> (alerts d))
                    (alertingRules d) (S (next_id d)))) ;;
  emit (DbInsertAlert alert) ;;
  mret alert.

Definition createAlert (insertAlert : InsertAlert.t) : M Alert.t :=
  insert_alert insertAlert.

Definition getAlert (id : nat) : M (option Alert.t) :=
  db_statement SelectAlerts ;;
  gets (λ w, alerts (db w) !! id).

(** [db.update(alerts).set(...).where(eq(alerts.id, id)).returning()] *)
Definition update_alert (id : nat) (f : Alert.t → Alert.t) : M (option Alert.t) :=
  db_statement UpdateAlerts ;;
  d ← gets db;
  match alerts d !! id with
  | None => mret None
  | Some old =>
      let alert := f old in
      modify (set_db (set_alerts (<[id := alert]> (alerts d)) d)) ;;
      emit (DbUpdateAlert id (Alert.status alert)) ;;
      mret (Some alert)
  end.

Definition set_status (status : string) (ack res : option nat) (a : Alert.t) : Alert.t :=
  Alert.mk (Alert.id a) (Alert.timestamp a) (Alert.severity a) (Alert.title a)
    (Alert.description a) (Alert.source a) (Alert.ipAddress a) status ack res.

Definition acknowledgeAlert (id : nat) : M (option Alert.t) :=
  stamp ← gets now;
  update_alert id (λ a, set_status "acknowledged" (Some stamp) (Alert.resolvedAt a) a).

Definition resolveAlert (id : nat) : M (option Alert.t) :=
  stamp ← gets now;
  update_alert id (λ a, set_status "resolved" (Alert.acknowledgedAt a) (Some stamp) a).

(** The detector table of [detectAnomalies], in source order. *)
Definition patterns : list (RegExp.regex * string) :=
  [ (RegExp.alts [["failed"; "login"]; ["authentication"; "failed"]], "high");
    (RegExp.alts [["port"; "scan"]; ["scanning"]; ["reconnaissance"]], "high");
    (RegExp.alts [["ddos"]; ["flood"]; ["syn"; "attack"]], "critical");
    (RegExp.alts [["privilege"; "escalation"]; ["sudo"]; ["root"; "access"]], "critical");
    (RegExp.alts [["data"; "exfil"]; ["data"; "transfer"; "unusual"];
                  ["suspicious"; "download"]], "critical");
    (RegExp.alts [["sql"; "injection"]; ["injection"]; ["xss"]; ["cross"; "site"]], "high");
    (RegExp.alts [["firewall"; "block"]; ["blocked"]; ["denied"]], "medium") ].

(** A detector fires on the message or on the event type. *)
Definition fires (pattern : RegExp.regex) (log : Log.t) : bool :=
  RegExp.test pattern (Log.message log) || RegExp.test pattern (Log.eventType log).

(** The [for ... of patterns] loop with its [break], on the two locals
    [alertTriggered] and [detectedSeverity]. *)
Fixpoint scan (ps : list (RegExp.regex * string)) (log : Log.t)
    (alertTriggered : bool) (detectedSeverity : string) : bool * string :=
  match ps with
  | [] => (alertTriggered, detectedSeverity)
  | (pattern, severity) :: ps' =>
      if fires pattern log then
        (true,
         if String.eqb severity "critical"
            || (String.eqb severity "high"
                && negb (String.eqb detectedSeverity "critical"))
         then severity else detectedSeverity)
      else scan ps' log alertTriggered detectedSeverity
  end.

(** The number literal [0.6]. *)
Definition threshold : float := 0x1.3333333333333p-1.

Definition logContext (log : Log.t) : string :=
  "Source: " +:+ Log.source log +:+ ", Type: " +:+ Log.eventType log
    +:+ ", IP: " +:+ JS.or_else (Log.ipAddress log) "N/A".

Definition anomalyAlert (log : Log.t) (detectedSeverity : string) : InsertAlert.t :=
  InsertAlert.mk detectedSeverity
    ("Anomaly Detected: " +:+ Log.eventType log)
    (Log.message log)
    (Log.source log)
    (JS.or_undefined (Log.ipAddress log))
    (Some "active").

(** The last statement of [detectAnomalies]: [if (alertTriggered)
    { await this.createAlert(...) }]. *)
Definition raise (log : Log.t) (alertTriggered : bool) (detectedSeverity : string)
    : M unit :=
  if alertTriggered
  then createAlert (anomalyAlert log detectedSeverity) ;; mret tt
  else mret tt.

Definition detectAnomalies (log : Log.t) : M unit :=
  let '(alertTriggered, detectedSeverity) := scan patterns log false "info" in
  '(alertTriggered, detectedSeverity) ←
    (if String.eqb (Log.level log) "error" || String.eqb (Log.level log) "critical"
     then
       aiAnalysis ← analyzeLogForAnomalies (Log.message log) (logContext log);
       if isAnomalous aiAnalysis && JS.gt (confidence aiAnalysis) threshold
       then mret (true, "critical")
       else mret (alertTriggered, detectedSeverity)
     else mret (alertTriggered, detectedSeverity));
  raise log alertTriggered detectedSeverity.

(** [detectAnomalies] in the segments that its [await]s separate.

    [if (alertTriggered) { await this.createAlert(...) }] up to the
    [await]: the insertion is issued, and the promise waits for its
    result. *)
Definition raise_call (log : Log.t) (alertTriggered : bool) (detectedSeverity : string)
    : M (option Detection) :=
  if alertTriggered
  then λ w,
    match createAlert (anomalyAlert log detectedSeverity) w with
    | (Ok alert, w') => (Ok (Some (AwaitsAlert log (Some alert))), w')
    | (Throw _, w') => (Ok (Some (AwaitsAlert log None)), w')
    end
  else mret None.

(** From the call to the first [await]; [None] when the function body
    ends without an [await] and the promise is fulfilled at once. *)
Definition detectAnomalies_call (log : Log.t) : M (option Detection) :=
  let '(alertTriggered, detectedSeverity) := scan patterns log false "info" in
  if String.eqb (Log.level log) "error" || String.eqb (Log.level log) "critical"
  then
    reply ← analyzeLogForAnomalies_call (Log.message log) (logContext log);
    mret (Some (AwaitsAnalysis log alertTriggered detectedSeverity reply))
  else raise_call log alertTriggered detectedSeverity.

(** From one [await] to the next, or to the end.  A rejected insertion
    rejects the promise, which goes to the [catch] handler that
    [createLog] gives it. *)
Definition detectAnomalies_resume (d : Detection) : M (option Detection) :=
  match d with
  | AwaitsAnalysis log alertTriggered detectedSeverity reply =>
      aiAnalysis ← analyzeLogForAnomalies_resume reply;
      if isAnomalous aiAnalysis && JS.gt (confidence aiAnalysis) threshold
      then raise_call log true "critical"
      else raise_call log alertTriggered detectedSeverity
  | AwaitsAlert log (Some _) => mret None
  | AwaitsAlert log None => console_error "Anomaly detection error:" ;; mret None
  end.

(** [this.detectAnomalies(log).catch(...)]: the call runs to its first
    [await], and what is left of it is a pending promise. *)
Definition startDetection (log : Log.t) : M unit :=
  suspended ← detectAnomalies_call log;
  modify (λ w, set_pending (pending w ++ option_list suspended) w).

(** [createLog]: the detection promise is started and given its
    [catch] handler, and is not awaited. *)
Definition createLog (insertLog : InsertLog.t) : M Log.t :=
  log ← insert_log insertLog;
  startDetection log ;;
  mret log.

(** The event loop: what the pending promise at position [i] waits for
    arrives, and the promise runs on to its next [await] or to its end.
    Any position may be taken: promises settle in no fixed order. *)
Definition resume (i : nat) : M unit := λ w,
  match pending w !! i with
  | None => (Ok tt, w)
  | Some d =>
      (next ← detectAnomalies_resume d;
       modify (λ w, set_pending (match next with
                                 | Some d' => <[i := d']> (pending w)
                                 | None => delete i (pending w)
                                 end) w)) w
  end.

(** *** The rule engine

    Two services of the JavaScript runtime are taken as given:
    [JSON.parse] on a stored condition text, typed as the source casts
    it ([None] when it throws), and [new RegExp(source, "i")] ([None]
    when the source is not a valid pattern), returning its [test]. *)

Section RuleEngine.

Variable JSON_parse : string → option (list RuleCondition.t).
Variable new_RegExp_i : string → option (string → bool).

Definition getAlertingRules : M (list AlertingRule.t) :=
  db_statement SelectRules ;;
  emit DbSelectRules ;;
  gets (λ w, alertingRules (db w)).

Definition getValue (cond : RuleCondition.t) (context : RuleEvaluationContext.t)
    : option string :=
  if String.eqb (RuleCondition.type cond) "ip" then RuleEvaluationContext.ip context
  else if String.eqb (RuleCondition.type cond) "eventType"
       then Some (RuleEvaluationContext.eventType context)
  else if String.eqb (RuleCondition.type cond) "severity"
       then Some (RuleEvaluationContext.severity context)
  else if String.eqb (RuleCondition.type cond) "pattern"
       then Some (RuleEvaluationContext.message context)
  else if String.eqb (RuleCondition.type cond) "source"
       then Some (RuleEvaluationContext.source context)
  else None.

Definition evaluateCondition (cond : RuleCondition.t)
    (context : RuleEvaluationContext.t) : bool :=
  match getValue cond context with
  | None => false
  | Some value =>
      if String.eqb value "" then false
      else if String.eqb (RuleCondition.operator cond) "equals" then
        match RuleCondition.value cond with
        | RuleCondition.Str s => String.eqb value s
        | RuleCondition.Arr _ => false
        end
      else if String.eqb (RuleCondition.operator cond) "contains" then
        JS.includes value (RuleCondition.String_value (RuleCondition.value cond))
      else if String.eqb (RuleCondition.operator cond) "matches" then
        match new_RegExp_i (RuleCondition.String_value (RuleCondition.value cond)) with
        | Some regex_test => regex_test value
        | None => false
        end
      else if String.eqb (RuleCondition.operator cond) "in" then
        match RuleCondition.value cond with
        | RuleCondition.Arr l => JS.array_includes l value
        | RuleCondition.Str _ => false
        end
      else false
  end.

(** [conditions.every(cond => this.evaluateCondition(cond, context))] *)
Definition evaluateConditions (conditions : list RuleCondition.t)
    (context : RuleEvaluationContext.t) : bool :=
  forallb (λ cond, evaluateCondition cond context) conditions.

Definition contextOf (log : Log.t) : RuleEvaluationContext.t :=
  RuleEvaluationContext.mk
    (JS.or_undefined (Log.ipAddress log))
    (Log.eventType log) (Log.level log) (Log.message log) (Log.source log).

Definition ruleAlert (rule : AlertingRule.t) (log : Log.t) : InsertAlert.t :=
  InsertAlert.mk (AlertingRule.severity rule)
    (AlertingRule.name rule)
    ("Custom rule triggered: "
       +:+ JS.or_else (AlertingRule.description rule) (AlertingRule.name rule))
    (Log.source log)
    (JS.or_undefined (Log.ipAddress log))
    (Some "active").

(** The body of the [try] block for one rule. *)
Definition evaluateRule (rule : AlertingRule.t) (log : Log.t) : M unit :=
  conditions ← match JSON_parse (AlertingRule.condition rule) with
               | Some cs => mret cs
               | None => mthrow SyntaxError
               end;
  if evaluateConditions conditions (contextOf log)
  then createAlert (ruleAlert rule log) ;; mret tt
  else mret tt.

(** One turn of the loop: the [try] block and its [catch]. *)
Definition tryRule (rule : AlertingRule.t) (log : Log.t) : M unit :=
  try_catch (evaluateRule rule log)
    (λ error,
       console_error ("Error evaluating rule " +:+ pretty (AlertingRule.id rule) +:+ ":")).

Definition evaluateRulesForLog (log : Log.t) : M unit :=
  rules ← getAlertingRules;
  let enabledRules := List.filter AlertingRule.enabled rules in
  for_of enabledRules (λ rule, tryRule rule log).

End RuleEngine.

End Storage.

(** ** [server/routes.ts]

    Requests are taken past the session check.  A request body is given by
    what the route's schema makes of it. *)

Inductive Body (A : Type) : Type :=
| Valid (a : A)
| Invalid.
Arguments Valid {A} a.
Arguments Invalid {A}.

Module Routes.

Definition schema_parse {A} (body : Body A) : M A :=
  match body with
  | Valid a => mret a
  | Invalid => mthrow ZodError
  end.

Definition respond (status : nat) (body : ResBody) : M unit :=
  emit (Response status body).

Section Handlers.

Variable JSON_parse : string → option (list RuleCondition.t).
Variable new_RegExp_i : string → option (string → bool).

(** [POST /api/logs] *)
Definition post_api_logs (body : Body InsertLog.t) : M unit :=
  try_catch
    (validatedData ← schema_parse body;
     log ← Storage.createLog validatedData;
     Stream.broadcastLogCreated log ;;
     Storage.evaluateRulesForLog JSON_parse new_RegExp_i log ;;
     respond 201 (JsonLog log))
    (λ error, respond 400 (JsonError "Invalid log data")).

End Handlers.

(** [POST /api/alerts] *)
Definition post_api_alerts (body : Body InsertAlert.t) : M unit :=
  try_catch
    (validatedData ← schema_parse body;
     alert ← Storage.createAlert validatedData;
     Stream.broadcastAlertCreated alert ;;
     respond 201 (JsonAlert alert))
    (λ error, respond 400 (JsonError "Invalid alert data")).

(** [PATCH /api/alerts/:id/acknowledge] *)
Definition patch_api_alerts_acknowledge (id : nat) : M unit :=
  try_catch
    (alert ← Storage.acknowledgeAlert id;
     match alert with
     | None => respond 404 (JsonError "Alert not found")
     | Some a => respond 200 (JsonAlert a)
     end)
    (λ error, respond 500 (JsonError "Failed to acknowledge alert")).

(** [PATCH /api/alerts/:id/resolve] *)
Definition patch_api_alerts_resolve (id : nat) : M unit :=
  try_catch
    (alert ← Storage.resolveAlert id;
     match alert with
     | None => respond 404 (JsonError "Alert not found")
     | Some a => respond 200 (JsonAlert a)
     end)
    (λ error, respond 500 (JsonError "Failed to resolve alert")).

End Routes.

(** ** The event loop

    While a function waits at an [await], what other pending promises
    wait for may arrive, and those promises run on before the function
    does.  A schedule gives, for each [await] of the ingestion request,
    the positions of the pending promises that are resumed while the
    request waits there, in the order in which they are resumed: [await]
    0 is the insertion of the log, 1 the promise of [createLog], 2 the
    rule query, and 3 + k the alert insertion of the k-th enabled rule.
    The functions of the request are repeated here with their [await]s
    marked; with the empty schedule they are the functions above.  Not
    every schedule is a run of the program, since a result cannot arrive
    at every [await]; but a run of the program resumes its promises at
    [await]s of the request or after it, so what holds of every schedule
    holds of every run. *)

Module EventLoop.

Definition arrive (ready : list nat) : M unit := for_of ready Storage.resume.

(** [await p]: the promise [p] is started, the promises of [ready] run
    on, and then the outcome of [p] is delivered. *)
Definition await {A} (ready : list nat) (p : M A) : M A := λ w,
  let '(outcome, w') := p w in (outcome, (arrive ready w').2).

Section Request.

Variable JSON_parse : string → option (list RuleCondition.t).
Variable new_RegExp_i : string → option (string → bool).
Variable schedule : nat → list nat.

Definition createLog (insertLog : InsertLog.t) : M Log.t :=
  log ← await (schedule 0) (Storage.insert_log insertLog);
  Storage.startDetection log ;;
  mret log.

Definition evaluateRule (k : nat) (rule : AlertingRule.t) (log : Log.t) : M unit :=
  conditions ← match JSON_parse (AlertingRule.condition rule) with
               | Some cs => mret cs
               | None => mthrow SyntaxError
               end;
  if Storage.evaluateConditions new_RegExp_i conditions (Storage.contextOf log)
  then await (schedule (3 + k)) (Storage.createAlert (Storage.ruleAlert rule log)) ;;
       mret tt
  else mret tt.

Definition tryRule (k : nat) (rule : AlertingRule.t) (log : Log.t) : M unit :=
  try_catch (evaluateRule k rule log)
    (λ error,
       console_error ("Error evaluating rule " +:+ pretty (AlertingRule.id rule) +:+ ":")).

Definition evaluateRulesForLog (log : Log.t) : M unit :=
  rules ← await (schedule 2) Storage.getAlertingRules;
  let enabledRules := List.filter AlertingRule.enabled rules in
  for_of (imap pair enabledRules) (λ '(k, rule), tryRule k rule log).

(** [POST /api/logs] *)
Definition post_api_logs (body : Body InsertLog.t) : M unit :=
  try_catch
    (validatedData ← Routes.schema_parse body;
     log ← await (schedule 1) (createLog validatedData);
     Stream.broadcastLogCreated log ;;
     evaluateRulesForLog log ;;
     Routes.respond 201 (JsonLog log))
    (λ error, Routes.respond 400 (JsonError "Invalid log data")).

End Request.

End EventLoop.

(** ** [server/auth.ts] and the authentication routes of [server/routes.ts]

    The users table, as the repository's notes give it, has a primary key
    and unique [username] and [email] columns.  A session is the
    [req.session] object of one client; [userId] holds a key, which is
    never the empty string, so [!session.userId] is the test for
    absence.  [bcryptjs] is taken as given: hashing draws a salt, and
    comparison is a function of the password and the hash. *)

Module User.
Record t := mk {
  id : nat;
  username : string;
  email : string;
  passwordHash : string;
  createdAt : nat;
}.
End User.

Module Auth.

Record Session := mkSession {
  userId : option nat;
  username : option string;
}.

Record State := mkState {
  users : list User.t;     (* in insertion order *)
  fresh : nat;             (* the next key *)
  rejections : list bool;  (* per database statement: does it reject? *)
  draws : nat;             (* salts drawn so far *)
  clock : nat;
  session : Session;
}.

Definition set_users (us : list User.t) (n : nat) (st : State) : State :=
  mkState us n (rejections st) (draws st) (clock st) (session st).
Definition set_rejections (rs : list bool) (st : State) : State :=
  mkState (users st) (fresh st) rs (draws st) (clock st) (session st).
Definition set_draws (n : nat) (st : State) : State :=
  mkState (users st) (fresh st) (rejections st) n (clock st) (session st).
Definition set_session (s : Session) (st : State) : State :=
  mkState (users st) (fresh st) (rejections st) (draws st) (clock st) s.

(** Promises over the authentication state. *)
Definition A (X : Type) : Type := State → Outcome X * State.

#[global] Instance A_ret : MRet A := λ X x st, (Ok x, st).

#[global] Instance A_bind : MBind A := λ X Y f m st,
  match m st with
  | (Ok x, st') => f x st'
  | (Throw e, st') => (Throw e, st')
  end.

#[global] Instance A_throw : MThrow exn A := λ X e st, (Throw e, st).

Definition try_catch {X} (body : A X) (handler : exn → A X) : A X := λ st,
  match body st with
  | (Ok x, st') => (Ok x, st')
  | (Throw e, st') => handler e st'
  end.

Definition gets {X} (f : State → X) : A X := λ st, (Ok (f st), st).
Definition modify (f : State → State) : A unit := λ st, (Ok tt, f st).

Definition statement : A unit := λ st,
  match rejections st with
  | true :: rs => (Throw DbError, set_rejections rs st)
  | false :: rs => (Ok tt, set_rejections rs st)
  | [] => (Ok tt, st)
  end.

Inductive Json : Type :=
| UserInfo (id : nat) (username email : string)
| Me (id : nat) (username : option string)
| Error (error : string)
| Success.

(** [res.status(status).json(body)]; [res.json] is status 200. *)
Record Res := mkRes {
  status : nat;
  body : Json;
}.

(** A request body, field by field: [None] when the field is missing or
    is not a string. *)
Record Body := mkBody {
  username_field : option string;
  email_field : option string;
  password_field : option string;
}.

Section Bcrypt.

Variable bcrypt_hash : nat → string → string.
Variable bcrypt_compare : string → string → bool.
Variable is_email : string → bool.

Definition hashPassword (password : string) : A string :=
  n ← gets draws;
  modify (set_draws (S n)) ;;
  mret (bcrypt_hash n password).

Definition verifyPassword (password hash : string) : A bool :=
  mret (bcrypt_compare password hash).

(** [const [user] = await db.select().from(users).where(eq(...))] *)
Definition findUserByUsername (username : string) : A (option User.t) :=
  statement ;;
  us ← gets users;
  mret (List.find (λ u, String.eqb (User.username u) username) us).

Definition findUserByEmail (email : string) : A (option User.t) :=
  statement ;;
  us ← gets users;
  mret (List.find (λ u, String.eqb (User.email u) email) us).

(** [db.insert(users).values(...).returning()], under the two unique
    constraints of the table. *)
Definition insert_user (username email passwordHash : string) : A User.t :=
  statement ;;
  us ← gets users;
  if existsb (λ u, String.eqb (User.username u) username
                   || String.eqb (User.email u) email) us
  then mthrow DbError
  else
    n ← gets fresh;
    stamp ← gets clock;
    let user := User.mk n username email passwordHash stamp in
    modify (set_users (us ++ [user]) (S n)) ;;
    mret user.

Definition createUser (username email password : string) : A User.t :=
  passwordHash ← hashPassword password;
  insert_user username email passwordHash.

(** [requireAuth], and the middleware over the protected routes:
    [Some] is the response sent, [None] is [next()]. *)
Definition requireAuth (s : Session) : option Res :=
  match userId s with
  | None => Some (mkRes 401 (Error "Unauthorized"))
  | Some _ => None
  end.

Definition protectedRoutes : list string :=
  ["/api/logs"; "/api/alerts"; "/api/network/events"; "/api/metrics"; "/api/rules"].

Definition protect (path : string) (s : Session) : option Res :=
  if existsb (λ route, String.prefix route path) protectedRoutes
  then match userId s with
       | None => Some (mkRes 401 (Error "Unauthorized"))
       | Some _ => None
       end
  else None.

(** [registerSchema.parse] and [loginSchema.parse] *)
Definition registerSchema_parse (b : Body) : A (string * string * string) :=
  match username_field b, email_field b, password_field b with
  | Some username, Some email, Some password =>
      if (3 <=? String.length username)%nat && is_email email
         && (6 <=? String.length password)%nat
      then mret (username, email, password)
      else mthrow ZodError
  | _, _, _ => mthrow ZodError
  end.

Definition loginSchema_parse (b : Body) : A (string * string) :=
  match username_field b, password_field b with
  | Some username, Some password =>
      if (1 <=? String.length username)%nat && (1 <=? String.length password)%nat
      then mret (username, password)
      else mthrow ZodError
  | _, _ => mthrow ZodError
  end.

Definition login_session (user : User.t) : A unit :=
  modify (set_session (mkSession (Some (User.id user)) (Some (User.username user)))).

(** [POST /api/auth/register] *)
Definition register (b : Body) : A Res :=
  try_catch
    ('(username, email, password) ← registerSchema_parse b;
     existingUser ← findUserByUsername username;
     match existingUser with
     | Some _ => mret (mkRes 400 (Error "Username already taken"))
     | None =>
         existingEmail ← findUserByEmail email;
         match existingEmail with
         | Some _ => mret (mkRes 400 (Error "Email already registered"))
         | None =>
             user ← createUser username email password;
             login_session user ;;
             mret (mkRes 201 (UserInfo (User.id user) (User.username user)
                                (User.email user)))
         end
     end)
    (λ error, mret (mkRes 400 (Error "Registration failed"))).

(** [POST /api/auth/login] *)
Definition login (b : Body) : A Res :=
  try_catch
    ('(username, password) ← loginSchema_parse b;
     user ← findUserByUsername username;
     match user with
     | None => mret (mkRes 401 (Error "Invalid credentials"))
     | Some user =>
         passwordMatch ← verifyPassword password (User.passwordHash user);
         if passwordMatch : bool
         then
           login_session user ;;
           mret (mkRes 200 (UserInfo (User.id user) (User.username user)
                              (User.email user)))
         else mret (mkRes 401 (Error "Invalid credentials"))
     end)
    (λ error, mret (mkRes 400 (Error "Login failed"))).

End Bcrypt.

(** [POST /api/auth/logout]: [err] says whether the session store fails
    to destroy the session, which then stays as it is. *)
Definition logout (err : bool) : A Res :=
  if err then mret (mkRes 500 (Error "Logout failed"))
  else modify (set_session (mkSession None None)) ;; mret (mkRes 200 Success).

(** [GET /api/auth/me] *)
Definition me : A Res :=
  s ← gets session;
  match userId s with
  | None => mret (mkRes 401 (Error "Not authenticated"))
  | Some id => mret (mkRes 200 (Me id (username s)))
  end.

End Auth.

(** ** Vocabulary of the properties *)

(** The field selectors and the operators [evaluateCondition] knows. *)
Definition known_type (t : string) : bool :=
  String.eqb t "ip" || String.eqb t "eventType" || String.eqb t "severity"
  || String.eqb t "pattern" || String.eqb t "source".

Definition known_operator (o : string) : bool :=
  String.eqb o "equals" || String.eqb o "contains" || String.eqb o "matches"
  || String.eqb o "in".

(** The lifecycle order of alert statuses. *)
Definition rank (status : string) : option nat :=
  if String.eqb status "active" then Some 0
  else if String.eqb status "acknowledged" then Some 1
  else if String.eqb status "resolved" then Some 2
  else None.

(** Does the next database statement reject? *)
Definition rejects_next (w : World) : bool :=
  match faults w with
  | true :: _ => true
  | _ => false
  end.

(** The world after a database statement that did not reject. *)
Definition after_statement (w : World) : World :=
  match faults w with
  | _ :: fs => set_faults fs w
  | [] => w
  end.

Definition is_scorer_call (e : Event) : bool :=
  match e with ScorerCall _ _ => true | _ => false end.

Definition is_response (e : Event) : bool :=
  match e with Response _ _ => true | _ => false end.

Definition is_broadcast (e : Event) : bool :=
  match e with Broadcast _ => true | _ => false end.

(** The rule engine's query, answered or rejected. *)
Definition is_rule_engine (e : Event) : bool :=
  match e with
  | DbSelectRules | DbFailure SelectRules => true
  | _ => false
  end.

(** The events the storage layer emits outside of [createLog]. *)
Definition is_storage (e : Event) : bool :=
  match e with
  | DbInsertAlert _ | DbSelectRules | DbUpdateAlert _ _ | DbFailure _
  | ConsoleError _ => true
  | _ => false
  end.

(** The storage layer at work: the sockets, the pending promises, the
    scorer and the clock are left alone, no fault is invented, and the
    trace grows by events outside [bad]. *)
Definition storage_step (bad : Event → bool) : relation World :=
  λ w w', logStreamManager w' = logStreamManager w
          ∧ pending w' = pending w
          ∧ openai w' = openai w
          ∧ now w' = now w
          ∧ (faults w = [] → faults w' = [])
          ∧ ∃ evs, trace w' = trace w ++ evs ∧ List.existsb bad evs = false.

(** A computation preserves a relation between the world it starts in
    and the world it leaves. *)
Definition preserves (R : relation World) {A} (m : M A) : Prop :=
  ∀ w, R w (m w).2.

(** The trace is extended, and by events outside [bad] only. *)
Definition emits_no (bad : Event → bool) : relation World :=
  λ w w', ∃ evs, trace w' = trace w ++ evs ∧ List.existsb bad evs = false.

(** The events of detection and of the rule loop, and the broadcast. *)
Definition is_pipeline (e : Event) : bool :=
  match e with
  | DbInsertAlert _ | DbFailure InsertIntoAlerts | ConsoleError _ | ScorerCall _ _
  | Broadcast _ => true
  | _ => false
  end.

(** The rule engine's query, answered. *)
Definition is_answered (e : Event) : bool :=
  match e with DbSelectRules => true | _ => false end.

(** A landmark of the ingestion request: the rule engine's query or a
    response. *)
Definition is_landmark (e : Event) : bool := is_rule_engine e || is_response e.

(** The event loop at work: the scorer and the clock are left alone, and
    the trace grows by events outside [bad]. *)
Definition loop_step (bad : Event → bool) : relation World :=
  λ w w', openai w' = openai w
          ∧ now w' = now w
          ∧ ∃ evs, trace w' = trace w ++ evs ∧ List.existsb bad evs = false.

(** A detection promise resumed until it settles; it has two [await]s
    at most. *)
Definition run_on (d : option Detection) : M unit :=
  match d with
  | None => mret tt
  | Some d =>
      next ← Storage.detectAnomalies_resume d;
      match next with
      | None => mret tt
      | Some d' => Storage.detectAnomalies_resume d' ;; mret tt
      end
  end.


(** ** Sample inputs for the closed examples *)

Module Sample.

(** A parser that knows the empty array, the default condition text of
    the rule form, and rejects every other text. *)
Definition JSON_parse (s : string) : option (list RuleCondition.t) :=
  if String.eqb s "[]" then Some [] else None.

(** A runtime that reads every pattern source as a literal string, which
    is right for the sources that hold no metacharacter. *)
Definition new_RegExp_i (source : string) : option (string → bool) :=
  Some (RegExp.test (RegExp.lit source)).

Definition open_socket : WebSocket.t := WebSocket.mk WebSocket.OPEN [].
Definition closed_socket : WebSocket.t := WebSocket.mk WebSocket.CLOSED [].

Definition registry : LogStreamManager :=
  mkLogStreamManager
    (<["a" := mkLogSubscriber open_socket "a"]>
       (<["b" := mkLogSubscriber closed_socket "b"]> ∅))
    true.

Definition empty_rule : AlertingRule.t :=
  AlertingRule.mk 7 "Catch all" None "[]" "low" true 0 0.

Definition world (rules : list AlertingRule.t) (fs : list bool) : World :=
  mkWorld (mkDb [] ∅ rules 100) fs None registry 5 [] [].

(** A world whose scorer answers every request with [reply]. *)
Definition scored_world (reply : Completion) : World :=
  mkWorld (mkDb [] ∅ [] 100) [] (Some (λ _ _, reply)) registry 5 [] [].

Definition outage_log : InsertLog.t :=
  InsertLog.mk "critical" "system" None "service_stop"
    "Monitoring service stopped unexpectedly" None.

Definition firewall_log : InsertLog.t :=
  InsertLog.mk "info" "gateway" (Some "10.0.0.45") "firewall_event"
    "Connection blocked by firewall" None.

Definition login_log : InsertLog.t :=
  InsertLog.mk "warning" "security" (Some "203.0.113.42") "auth"
    "Failed login attempt from 203.0.113.42" None.

Definition stored (i : InsertLog.t) : Log.t := Storage.log_row i 100 5.

End Sample.

(** ** Further vocabulary *)

(** The alerts a run of events has stored, in order. *)
Definition inserted_alerts (t : list Event) : list Alert.t :=
  omap (λ e, match e with DbInsertAlert a => Some a | _ => None end) t.

(** Does a rule match a log?  A rule whose condition text does not parse
    does not. *)
Definition rule_fires (JSON_parse : string → option (list RuleCondition.t))
    (new_RegExp_i : string → option (string → bool))
    (log : Log.t) (rule : AlertingRule.t) : bool :=
  match JSON_parse (AlertingRule.condition rule) with
  | Some conditions =>
      Storage.evaluateConditions new_RegExp_i conditions (Storage.contextOf log)
  | None => false
  end.

(** The request that a stored alert was inserted with. *)
Definition alert_request (a : Alert.t) : InsertAlert.t :=
  InsertAlert.mk (Alert.severity a) (Alert.title a) (Alert.description a)
    (Alert.source a) (Alert.ipAddress a) (Some (Alert.status a)).

(** The severities [detectAnomalies] can give an alert. *)
Definition heuristic_severity (s : string) : bool :=
  String.eqb s "critical" || String.eqb s "high" || String.eqb s "info".

(** A number between 0 and 1. *)
Definition in_unit_interval (x : float) : bool :=
  PrimFloat.leb 0 x && PrimFloat.leb x 1.

(** What the pipeline may do to the database: logs and rules are kept,
    keys are only handed out, and every alert stored under a key handed
    out before is as it was. *)
Definition only_adds_alerts : relation World :=
  λ w w', logs (db w') = logs (db w)
          ∧ alertingRules (db w') = alertingRules (db w)
          ∧ (next_id (db w) ≤ next_id (db w'))%nat
          ∧ ∀ id, (id < next_id (db w))%nat → alerts (db w') !! id = alerts (db w) !! id.

(** The unique constraints of the users table. *)
Definition unique_users (us : list User.t) : Prop :=
  NoDup (User.username <$> us) ∧ NoDup (User.email <$> us).

Module Sample2.

(** A runtime that rejects the pattern source [(], an unterminated group,
    and reads every other source as a literal string. *)
Definition new_RegExp_i (source : string) : option (string → bool) :=
  if String.eqb source "(" then None else Some (RegExp.test (RegExp.lit source)).

Definition admin_log : Log.t :=
  Log.mk 100 5 "critical" "security" None "unauthorized_access"
    "Unauthorized access attempt to admin panel" None.

Definition second_rule : AlertingRule.t :=
  AlertingRule.mk 8 "Also all" (Some "every log") "[]" "medium" true 0 0.

Definition disabled_rule : AlertingRule.t :=
  AlertingRule.mk 9 "Switched off" None "[]" "high" false 0 0.

Definition broken_rule : AlertingRule.t :=
  AlertingRule.mk 10 "Broken" None "{" "high" true 0 0.

Definition quiet_log : InsertLog.t :=
  InsertLog.mk "info" "system" None "service_start"
    "Security monitoring service started successfully" None.

End Sample2.

Module AuthSample.

(** A stand-in for bcrypt in the closed examples: the hash is the
    password behind one character of salt, and comparison reads past
    the salt. *)
Definition bcrypt_hash (n : nat) (password : string) : string :=
  String (ascii_of_nat n) password.

Definition bcrypt_compare (password hash : string) : bool :=
  match hash with
  | String _ hashed => String.eqb hashed password
  | EmptyString => false
  end.

Definition is_email (s : string) : bool := JS.includes s "@".

Definition alice : User.t :=
  User.mk 1 "alice" "alice@example.com" (bcrypt_hash 0 "correct horse") 0.

Definition state (us : list User.t) : Auth.State :=
  Auth.mkState us 2 [] 1 9 (Auth.mkSession None None).

End AuthSample.

(** * Properties *)

(** ** Frame rules for the monad *)

Section Frame.

Context (R : relation World) `{!Reflexive R} `{!Transitive R}.

Lemma preserves_ret {A} (a : A) : preserves R (mret a).
Proof. intros w. simpl. reflexivity. Qed.

Lemma preserves_throw {A} (e : exn) : preserves R (mthrow e : M A).
Proof. intros w. simpl. reflexivity. Qed.

Lemma preserves_gets {A} (f : World → A) : preserves R (gets f).
Proof. intros w. simpl. reflexivity. Qed.

Lemma preserves_bind {A B} (m : M A) (f : A → M B) :
  preserves R m → (∀ a, preserves R (f a)) → preserves R (m ≫= f).
Proof.
  intros Hm Hf w. unfold mbind, M_bind. specialize (Hm w).
  destruct (m w) as [[a|e] w1]; simpl in *; [|done].
  etrans; [exact Hm|apply Hf].
Qed.

Lemma preserves_try_catch {A} (body : M A) (handler : exn → M A) :
  preserves R body → (∀ e, preserves R (handler e)) →
  preserves R (try_catch body handler).
Proof.
  intros Hm Hh w. unfold try_catch. specialize (Hm w).
  destruct (body w) as [[a|e] w1]; simpl in *; [done|].
  etrans; [exact Hm|apply Hh].
Qed.

Lemma preserves_for_of {A} (l : list A) (body : A → M unit) :
  (∀ x, preserves R (body x)) → preserves R (for_of l body).
Proof.
  intros Hb. induction l as [|x l IH]; simpl.
  - apply preserves_ret.
  - apply preserves_bind; [apply Hb|intros _; apply IH].
Qed.

End Frame.

Ltac frame_step :=
  lazymatch goal with
  | |- preserves ?R (mret _) => apply (preserves_ret R)
  | |- preserves ?R (mthrow _) => apply (preserves_throw R)
  | |- preserves ?R (gets _) => apply (preserves_gets R)
  | |- preserves ?R (_ ≫= _) => apply (preserves_bind R); [|intros ?]
  | |- preserves ?R (try_catch _ _) => apply (preserves_try_catch R); [|intros ?]
  | |- preserves ?R (for_of _ _) => apply (preserves_for_of R); intros ?
  | |- preserves _ (match ?x with _ => _ end) => destruct x
  end.

Ltac frame := repeat frame_step.

(** ** The storage layer keeps to itself *)

Section StorageStep.

Variable bad : Event → bool.
Hypothesis bad_storage : ∀ e, is_storage e = true → bad e = false.

#[global] Instance storage_step_refl : Reflexive (storage_step bad).
Proof.
  intros w. split_and!; try done. exists []. by rewrite app_nil_r.
Qed.

#[global] Instance storage_step_trans : Transitive (storage_step bad).
Proof.
  intros w1 w2 w3 (Hs & Hp & Ho & Hn & Hf & evs & Ht & Hb)
    (Hs' & Hp' & Ho' & Hn' & Hf' & evs' & Ht' & Hb').
  split_and!; try congruence; [tauto|].
  exists (evs ++ evs'). split.
  - by rewrite Ht', Ht, app_assoc.
  - rewrite existsb_app, Hb, Hb'. done.
Qed.

Lemma step_emit e : bad e = false → preserves (storage_step bad) (emit e).
Proof.
  intros He w. split_and!; try done. exists [e]. split; [done|].
  simpl. by rewrite He.
Qed.

Lemma step_db_statement s : preserves (storage_step bad) (db_statement s).
Proof.
  intros w. unfold db_statement.
  destruct (faults w) as [|[] fs] eqn:Hf; simpl.
  - reflexivity.
  - split_and!; try done; [congruence|].
    exists [DbFailure s]. split; [done|]. simpl. by rewrite bad_storage.
  - split_and!; try done; [congruence|].
    exists []. by rewrite app_nil_r.
Qed.

Lemma step_set_db d : preserves (storage_step bad) (modify (set_db d)).
Proof.
  intros w. split_and!; try done. exists []. simpl. by rewrite app_nil_r.
Qed.

Lemma step_createAlert ins : preserves (storage_step bad) (Storage.createAlert ins).
Proof.
  unfold Storage.createAlert, Storage.insert_alert. frame.
  - apply step_db_statement.
  - apply step_set_db.
  - by apply step_emit, bad_storage.
Qed.

Lemma step_raise log t sev : preserves (storage_step bad) (Storage.raise log t sev).
Proof. unfold Storage.raise. frame. apply step_createAlert. Qed.

Lemma step_console_error what : preserves (storage_step bad) (console_error what).
Proof. by apply step_emit, bad_storage. Qed.

Lemma step_tryRule parse re rule log :
  preserves (storage_step bad) (Storage.tryRule parse re rule log).
Proof.
  unfold Storage.tryRule, Storage.evaluateRule.
  frame; try apply step_createAlert. apply step_console_error.
Qed.

Lemma step_evaluateRulesForLog parse re log :
  preserves (storage_step bad) (Storage.evaluateRulesForLog parse re log).
Proof.
  unfold Storage.evaluateRulesForLog, Storage.getAlertingRules, Storage.tryRule,
    Storage.evaluateRule.
  frame; try apply step_db_statement; try apply step_createAlert;
    try apply step_console_error.
  by apply step_emit, bad_storage.
Qed.

Hypothesis bad_scorer : ∀ m c, bad (ScorerCall m c) = false.

Lemma step_analyze m c : preserves (storage_step bad) (analyzeLogForAnomalies m c).
Proof.
  unfold analyzeLogForAnomalies. frame; try apply step_console_error.
  all: by apply step_emit.
Qed.

Lemma step_detectAnomalies log :
  preserves (storage_step bad) (Storage.detectAnomalies log).
Proof.
  unfold Storage.detectAnomalies.
  destruct (Storage.scan _ _ _ _) as [t sev]. frame; try apply step_raise.
  all: try apply step_analyze.
Qed.

End StorageStep.

(** ** The condition evaluator *)

Section ConditionEvaluator.

Variable JSON_parse : string → option (list RuleCondition.t).
Variable new_RegExp_i : string → option (string → bool).

Lemma getValue_unknown_type cond context :
  known_type (RuleCondition.type cond) = false →
  Storage.getValue cond context = None.
Proof.
  unfold known_type, Storage.getValue. intros H.
  repeat apply orb_false_elim in H as [H ?].
  by repeat match goal with E : String.eqb _ _ = false |- _ => rewrite E; clear E end.
Qed.

Lemma evaluateCondition_unknown_operator cond context :
  known_operator (RuleCondition.operator cond) = false →
  Storage.evaluateCondition new_RegExp_i cond context = false.
Proof.
  unfold known_operator, Storage.evaluateCondition. intros H.
  repeat apply orb_false_elim in H as [H ?].
  destruct (Storage.getValue cond context) as [v|]; [|done].
  destruct (String.eqb v ""); [done|].
  by repeat match goal with E : String.eqb _ _ = false |- _ => rewrite E; clear E end.
Qed.

Lemma evaluateConditions_false cond conditions context :
  cond ∈ conditions →
  Storage.evaluateCondition new_RegExp_i cond context = false →
  Storage.evaluateConditions new_RegExp_i conditions context = false.
Proof.
  intros Hin Hc. unfold Storage.evaluateConditions.
  induction conditions as [|c l IH]; simpl.
  - by apply elem_of_nil in Hin.
  - apply elem_of_cons in Hin as [<-|Hin].
    + by rewrite Hc.
    + rewrite (IH Hin). apply andb_false_r.
Qed.

(** A rule whose conditions do not all hold leaves the world as it is. *)
Lemma evaluateRule_no_match rule conditions log w :
  JSON_parse (AlertingRule.condition rule) = Some conditions →
  Storage.evaluateConditions new_RegExp_i conditions (Storage.contextOf log) = false →
  Storage.evaluateRule JSON_parse new_RegExp_i rule log w = (Ok tt, w).
Proof.
  intros Hparse Hfalse. unfold Storage.evaluateRule. rewrite Hparse.
  unfold mbind, M_bind. simpl. by rewrite Hfalse.
Qed.

(** C10. A condition whose field selector or whose operator is not one
    the evaluator knows evaluates to [false] (the evaluator is a total
    function: it has no throwing path); a condition list that holds such
    a condition does not match, and the turn of a rule with such a list
    returns without requesting an alert. *)
Theorem unrecognised_condition_fails_closed cond conditions context :
  known_type (RuleCondition.type cond) = false
  ∨ known_operator (RuleCondition.operator cond) = false →
  Storage.evaluateCondition new_RegExp_i cond context = false
  ∧ (cond ∈ conditions →
     Storage.evaluateConditions new_RegExp_i conditions context = false)
  ∧ (cond ∈ conditions →
     ∀ rule log w,
       JSON_parse (AlertingRule.condition rule) = Some conditions →
       Storage.evaluateRule JSON_parse new_RegExp_i rule log w = (Ok tt, w)).
Proof.
  intros H.
  assert (∀ context', Storage.evaluateCondition new_RegExp_i cond context' = false) as Hc.
  { intros context'. destruct H as [H|H].
    - unfold Storage.evaluateCondition. by rewrite (getValue_unknown_type _ _ H).
    - by apply evaluateCondition_unknown_operator. }
  split; [done|]. split.
  - intros Hin. by eapply evaluateConditions_false.
  - intros Hin rule log w Hparse.
    apply (evaluateRule_no_match rule conditions); [done|].
    by eapply evaluateConditions_false.
Qed.

(** C9, as the code has it.  With operator [equals], the evaluator
    returns [true] iff the selected field is present, is not the empty
    string, and is the comparison value, a string; in particular an
    absent or empty field yields [false] against every comparison
    value, the empty string included. *)
Theorem equals_true_iff cond context :
  RuleCondition.operator cond = "equals" →
  Storage.evaluateCondition new_RegExp_i cond context = true
  ↔ ∃ v, Storage.getValue cond context = Some v
         ∧ v ≠ ""
         ∧ RuleCondition.value cond = RuleCondition.Str v.
Proof.
  intros Hop. unfold Storage.evaluateCondition. rewrite Hop. simpl.
  destruct (Storage.getValue cond context) as [v|].
  2: { split; [done|]. by intros (v & ? & _). }
  destruct (String.eqb_spec v "") as [->|Hne].
  { split; [done|]. by intros (v & [= <-] & Hv & _). }
  destruct (RuleCondition.value cond) as [s|l].
  2: { split; [done|]. by intros (v' & _ & _ & ?). }
  destruct (String.eqb_spec v s) as [->|Hvs].
  - split; [|done]. intros _. by exists s.
  - split; [done|]. by intros (v' & [= <-] & _ & [= ->]).
Qed.

End ConditionEvaluator.

(** C9, witness: the source field equals the comparison value. *)
Lemma equals_true_iff_witness :
  let cond := RuleCondition.mk "source" "equals" (RuleCondition.Str "security") in
  let context := RuleEvaluationContext.mk None "auth" "warning" "m" "security" in
  RuleCondition.operator cond = "equals"
  ∧ Storage.evaluateCondition Sample.new_RegExp_i cond context = true.
Proof.
  intros cond context. split; [reflexivity|].
  apply (equals_true_iff Sample.new_RegExp_i cond context); [reflexivity|].
  exists "security". repeat split. discriminate.
Defined.

(** C9, counterexample: the field is the empty string and so is the
    comparison value; the two are exactly equal, and the evaluator
    returns [false]. *)
Lemma equals_empty_field_counterexample :
  let cond := RuleCondition.mk "source" "equals" (RuleCondition.Str "") in
  let context := RuleEvaluationContext.mk None "auth" "warning" "m" "" in
  ¬ (Storage.evaluateCondition Sample.new_RegExp_i cond context = true
     ↔ RuleCondition.value cond
       = RuleCondition.Str (RuleEvaluationContext.source context)).
Proof. intros cond context [_ H]. by specialize (H eq_refl). Qed.

(** C10, witness: a selector the evaluator does not know. *)
Lemma unrecognised_condition_fails_closed_witness :
  let cond := RuleCondition.mk "hostname" "equals" (RuleCondition.Str "db1") in
  let context := RuleEvaluationContext.mk None "auth" "warning" "m" "db1" in
  (known_type (RuleCondition.type cond) = false
   ∨ known_operator (RuleCondition.operator cond) = false)
  ∧ Storage.evaluateCondition Sample.new_RegExp_i cond context = false
  ∧ Storage.evaluateConditions Sample.new_RegExp_i [cond] context = false.
Proof.
  intros cond context. split; [left; reflexivity|].
  destruct (unrecognised_condition_fails_closed Sample.JSON_parse Sample.new_RegExp_i
              cond [cond] context (or_introl eq_refl)) as (H1 & H2 & _).
  split; [exact H1|]. apply H2, list_elem_of_here.
Defined.

(** ** The heuristic detectors *)

(** The loop stops at the first detector that fires; the severity it
    leaves in [detectedSeverity] is the detector's only when that is
    [critical] or [high]. *)
Lemma scan_first_match pre pattern severity post log t d :
  forallb (λ p, negb (Storage.fires p.1 log)) pre = true →
  Storage.fires pattern log = true →
  Storage.scan (pre ++ (pattern, severity) :: post) log t d
  = (true,
     if String.eqb severity "critical"
        || (String.eqb severity "high" && negb (String.eqb d "critical"))
     then severity else d).
Proof.
  intros Hpre Hfire. induction pre as [|[p s] pre IH]; simpl in *.
  - by rewrite Hfire.
  - apply andb_true_iff in Hpre as [Hp Hpre].
    apply negb_true_iff in Hp. rewrite Hp. by apply IH.
Qed.

Example failed_login_fires_first_detector :
  let log := Sample.stored Sample.login_log in
  Storage.scan Storage.patterns log false "info" = (true, "high")
  ∧ trace (Storage.detectAnomalies log (Sample.world [] [])).2
    = [DbInsertAlert (Storage.alert_row (Storage.anomalyAlert log "high") 100 5)].
Proof. vm_compute. done. Qed.

Example dot_does_not_cross_lines :
  let pattern := RegExp.alts [["failed"; "login"]] in
  RegExp.test pattern "FAILED to LogIn" = true
  ∧ RegExp.test pattern ("failed" +:+ String "010" "login") = false
  ∧ RegExp.test pattern "login failed" = false.
Proof. vm_compute. done. Qed.

(** C5, at the failing input.  A log that only the firewall detector
    matches: the detector's severity is [medium], the loop leaves
    [detectedSeverity] at its initial [info], and the alert is stored with
    severity [info]. *)
Theorem firewall_denial_alert_severity :
  let log := Sample.stored Sample.firewall_log in
  let w' := (Storage.detectAnomalies log (Sample.world [] [])).2 in
  (λ p, Storage.fires p.1 log) <$> Storage.patterns
  = [false; false; false; false; false; false; true]
  ∧ snd <$> Storage.patterns !! 6 = Some "medium"
  ∧ Storage.scan Storage.patterns log false "info" = (true, "info")
  ∧ Alert.severity <$> alerts (db w') !! 100 = Some "info".
Proof. vm_compute. done. Qed.

(** ** The subscriber registry *)

(** Eviction is the work of the [close] and [error] handlers. *)
Lemma close_and_error_evict subscriberId w :
  subscribers (logStreamManager (Stream.on_close subscriberId w).2) !! subscriberId = None
  ∧ subscribers (logStreamManager (Stream.on_error subscriberId w).2) !! subscriberId
    = None.
Proof. split; apply lookup_delete_eq. Qed.

(** Before [initialize], a broadcast does nothing at all. *)
Lemma broadcast_without_server type data w :
  wsServer (logStreamManager w) = false →
  Stream.broadcast type data w = (Ok tt, w).
Proof.
  intros H. unfold Stream.broadcast, mbind, M_bind, gets. cbn beta iota.
  by rewrite H.
Qed.

(** C7, as the code has it.  Once the server is initialised, a broadcast
    returns normally; a subscriber whose connection is [OPEN] has the
    message appended to what was sent to it; every other subscriber is
    left as it is, still registered; and no identifier is added. *)
Theorem broadcast_reaches_open_keeps_others type data w :
  wsServer (logStreamManager w) = true →
  let message := WebSocket.mkMessage type data (now w) in
  let w' := (Stream.broadcast type data w).2 in
  (Stream.broadcast type data w).1 = Ok tt
  ∧ ∀ subscriberId,
      match subscribers (logStreamManager w) !! subscriberId with
      | None => subscribers (logStreamManager w') !! subscriberId = None
      | Some s =>
          subscribers (logStreamManager w') !! subscriberId
          = Some (if decide (WebSocket.readyState (ws s) = WebSocket.OPEN)
                  then mkLogSubscriber (WebSocket.send message (ws s)) (id s)
                  else s)
      end.
Proof.
  intros Hserver. unfold Stream.broadcast, mbind, M_bind, gets.
  cbn beta iota. rewrite Hserver. simpl.
  split; [done|]. intros subscriberId. rewrite lookup_fmap.
  by destruct (subscribers (logStreamManager w) !! subscriberId).
Qed.

(** C7, witness: the sample registry, one open and one closed socket. *)
Lemma broadcast_reaches_open_keeps_others_witness :
  let w := Sample.world [] [] in
  let log := Sample.stored Sample.login_log in
  let message := WebSocket.mkMessage "log_created" (WebSocket.OfLog log) 5 in
  let w' := (Stream.broadcastLogCreated log w).2 in
  wsServer (logStreamManager w) = true
  ∧ subscribers (logStreamManager w') !! "a"
    = Some (mkLogSubscriber (WebSocket.mk WebSocket.OPEN [message]) "a").
Proof.
  intros w log message w'. split; [reflexivity|].
  pose proof (broadcast_reaches_open_keeps_others "log_created" (WebSocket.OfLog log) w
                eq_refl) as [_ H].
  exact (H "a").
Defined.

(** C7, counterexample: a subscriber whose connection is [CLOSED] at
    broadcast time is still in the registry afterwards. *)
Lemma broadcast_does_not_evict_counterexample :
  let w := Sample.world [] [] in
  let w' := (Stream.broadcastLogCreated (Sample.stored Sample.login_log) w).2 in
  WebSocket.readyState ∘ ws <$> subscribers (logStreamManager w) !! "b"
  = Some WebSocket.CLOSED
  ∧ subscribers (logStreamManager w') !! "b"
    = Some (mkLogSubscriber Sample.closed_socket "b").
Proof. vm_compute. done. Qed.

(** ** The alert store *)

Lemma db_statement_ok s w :
  rejects_next w = false → db_statement s w = (Ok tt, after_statement w).
Proof.
  unfold rejects_next, db_statement, after_statement.
  by destruct (faults w) as [|[] fs].
Qed.

Lemma db_statement_rejects s w :
  rejects_next w = true →
  db_statement s w
  = (Throw DbError,
     set_trace (trace w ++ [DbFailure s]) (set_faults (tail (faults w)) w)).
Proof.
  unfold rejects_next, db_statement.
  by destruct (faults w) as [|[] fs].
Qed.

Lemma db_after_statement w : db (after_statement w) = db w.
Proof. unfold after_statement. by destruct (faults w). Qed.

Lemma now_after_statement w : now (after_statement w) = now w.
Proof. unfold after_statement. by destruct (faults w). Qed.

Lemma trace_after_statement w : trace (after_statement w) = trace w.
Proof. unfold after_statement. by destruct (faults w). Qed.

Lemma update_alert_found id f a w :
  rejects_next w = false →
  alerts (db w) !! id = Some a →
  (Storage.update_alert id f w).1 = Ok (Some (f a))
  ∧ alerts (db (Storage.update_alert id f w).2) !! id = Some (f a).
Proof.
  intros Hok Ha. unfold Storage.update_alert, mbind, M_bind.
  rewrite (db_statement_ok _ _ Hok). unfold gets. cbn beta iota.
  rewrite db_after_statement, Ha. simpl. split; [done|].
  apply lookup_insert_eq.
Qed.

Lemma acknowledgeAlert_unfold id w :
  Storage.acknowledgeAlert id w
  = Storage.update_alert id
      (λ a, Storage.set_status "acknowledged" (Some (now w)) (Alert.resolvedAt a) a) w.
Proof. reflexivity. Qed.

Lemma resolveAlert_unfold id w :
  Storage.resolveAlert id w
  = Storage.update_alert id
      (λ a, Storage.set_status "resolved" (Alert.acknowledgedAt a) (Some (now w)) a) w.
Proof. reflexivity. Qed.

(** C6, as the code has it.  The alert requests of the pipeline carry
    status [active] and are stored with it.  On a stored alert,
    [acknowledgeAlert] sets the status to [acknowledged] and
    [resolveAlert] sets it to [resolved], whatever the status was:
    [resolveAlert] reaches the last status and so never moves an alert
    back, and [acknowledgeAlert] does not move back an alert that is not
    yet resolved. *)
Theorem alert_status_lifecycle log sev rule id a w :
  rejects_next w = false →
  alerts (db w) !! id = Some a →
  InsertAlert.status (Storage.anomalyAlert log sev) = Some "active"
  ∧ InsertAlert.status (Storage.ruleAlert rule log) = Some "active"
  ∧ (∀ ins, InsertAlert.status ins = Some "active" →
       ∃ a', (Storage.createAlert ins w).1 = Ok a' ∧ Alert.status a' = "active")
  ∧ (∃ a', (Storage.acknowledgeAlert id w).1 = Ok (Some a')
           ∧ alerts (db (Storage.acknowledgeAlert id w).2) !! id = Some a'
           ∧ Alert.status a' = "acknowledged"
           ∧ (Alert.status a ≠ "resolved" →
              ∀ r, rank (Alert.status a) = Some r → (r ≤ 1)%nat))
  ∧ (∃ a', (Storage.resolveAlert id w).1 = Ok (Some a')
           ∧ alerts (db (Storage.resolveAlert id w).2) !! id = Some a'
           ∧ Alert.status a' = "resolved"
           ∧ ∀ r, rank (Alert.status a) = Some r → (r ≤ 2)%nat).
Proof.
  intros Hok Ha. split_and!; try done.
  - intros ins Hactive.
    unfold Storage.createAlert, Storage.insert_alert, mbind, M_bind.
    rewrite (db_statement_ok _ _ Hok). simpl. eexists. split; [done|].
    unfold Storage.alert_row. simpl. by rewrite Hactive.
  - rewrite acknowledgeAlert_unfold.
    destruct (update_alert_found id
                (λ a0, Storage.set_status "acknowledged" (Some (now w))
                         (Alert.resolvedAt a0) a0) a w Hok Ha) as [H1 H2].
    eexists. split_and!; [exact H1|exact H2|done|].
    intros Hres r. unfold rank.
    destruct (String.eqb_spec (Alert.status a) "active"); [intros [= <-]; lia|].
    destruct (String.eqb_spec (Alert.status a) "acknowledged"); [intros [= <-]; lia|].
    destruct (String.eqb_spec (Alert.status a) "resolved"); done.
  - rewrite resolveAlert_unfold.
    destruct (update_alert_found id
                (λ a0, Storage.set_status "resolved" (Alert.acknowledgedAt a0)
                         (Some (now w)) a0) a w Hok Ha) as [H1 H2].
    eexists. split_and!; [exact H1|exact H2|done|].
    intros r. unfold rank.
    repeat (case_match; try (intros [= <-]; lia)).
Qed.

(** C6, witness: an alert of the pipeline is stored, then acknowledged. *)
Lemma alert_status_lifecycle_witness :
  let log := Sample.stored Sample.login_log in
  let w := (Storage.createAlert (Storage.anomalyAlert log "high") (Sample.world [] [])).2 in
  rejects_next w = false
  ∧ Alert.status <$> alerts (db w) !! 100 = Some "active"
  ∧ ∃ a', (Storage.acknowledgeAlert 100 w).1 = Ok (Some a')
          ∧ Alert.status a' = "acknowledged".
Proof.
  intros log w. split; [reflexivity|]. split; [reflexivity|].
  destruct (alert_status_lifecycle log "high" Sample.empty_rule 100
              (Alert.mk 100 5 "high" "Anomaly Detected: auth"
                 "Failed login attempt from 203.0.113.42" "security"
                 (Some "203.0.113.42") "active" None None)
              w eq_refl eq_refl)
    as (_ & _ & _ & (a' & H1 & _ & H3 & _) & _).
  exists a'. split; [exact H1|exact H3].
Defined.

(** C6, counterexample: an alert of the pipeline is resolved and then
    acknowledged; its status goes from [resolved] back to
    [acknowledged]. *)
Lemma acknowledge_after_resolve_counterexample :
  let log := Sample.stored Sample.login_log in
  let w1 := (Storage.createAlert (Storage.anomalyAlert log "high") (Sample.world [] [])).2 in
  let w2 := (Storage.resolveAlert 100 w1).2 in
  let w3 := (Storage.acknowledgeAlert 100 w2).2 in
  Alert.status <$> alerts (db w1) !! 100 = Some "active"
  ∧ Alert.status <$> alerts (db w2) !! 100 = Some "resolved"
  ∧ Alert.status <$> alerts (db w3) !! 100 = Some "acknowledged"
  ∧ rank "resolved" = Some 2 ∧ rank "acknowledged" = Some 1.
Proof. vm_compute. done. Qed.

(** ** The remote scorer *)

Lemma SFcompare_antisym x y c :
  SFcompare x y = Some c → SFcompare y x = Some (CompOpp c).
Proof.
  unfold SFcompare.
  destruct x as [sx|sx| |sx mx ex], y as [sy|sy| |sy my ey];
    try destruct sx; try destruct sy; try congruence;
    try (intros [= <-]; reflexivity).
  all: rewrite (Z.compare_antisym ex ey);
    change (Pos.compare_cont Eq my mx) with (Pos.compare_cont (CompOpp Eq) my mx);
    rewrite <- (Pos.compare_cont_antisym mx my Eq);
    destruct (ex ?= ey)%Z; cbn [CompOpp]; try (intros [= <-]; reflexivity);
    destruct (Pos.compare_cont Eq mx my); cbn [CompOpp]; intros [= <-]; reflexivity.
Qed.

(** A number at or below the threshold is not above it. *)
Lemma le_threshold_not_gt c :
  PrimFloat.leb c Storage.threshold = true → JS.gt c Storage.threshold = false.
Proof.
  unfold JS.gt. rewrite leb_spec, ltb_spec. unfold SFleb, SFltb.
  destruct (SFcompare (Prim2SF c) (Prim2SF Storage.threshold)) as [o|] eqn:E;
    [|discriminate].
  rewrite (SFcompare_antisym _ _ _ E). by destruct o.
Qed.

(** The scorer wrapper always returns: it has no rejecting path. *)
Lemma analyzeLogForAnomalies_returns m c w :
  ∃ a, (analyzeLogForAnomalies m c w).1 = Ok a.
Proof.
  unfold analyzeLogForAnomalies, mbind, M_bind, gets, try_catch. cbn beta iota.
  destruct (openai w) as [create|]; [|by eexists].
  simpl. destruct (create m c); by eexists.
Qed.

Lemma is_storage_not_scorer_call e : is_storage e = true → is_scorer_call e = false.
Proof. by destruct e. Qed.

(** C8.  Below the [error] level the scorer is not consulted: the
    outcome is that of the detectors and the trace gains no scorer call.
    At [error] or [critical] level the scorer wrapper returns an analysis;
    if it is anomalous with confidence above 0.6, an alert of severity
    [critical] is requested whatever the detectors found; if the
    confidence is 0.6 or below, or the analysis is not anomalous, the
    outcome of the detectors stands. *)
Theorem scorer_consulted_and_escalates log w :
  let outcome := Storage.scan Storage.patterns log false "info" in
  let scored := analyzeLogForAnomalies (Log.message log) (Storage.logContext log) w in
  (Log.level log ≠ "error" → Log.level log ≠ "critical" →
   Storage.detectAnomalies log w = Storage.raise log outcome.1 outcome.2 w
   ∧ emits_no is_scorer_call w (Storage.detectAnomalies log w).2)
  ∧ (Log.level log = "error" ∨ Log.level log = "critical" →
     ∃ a, scored.1 = Ok a
          ∧ (isAnomalous a = true →
             JS.gt (confidence a) Storage.threshold = true →
             Storage.detectAnomalies log w
             = (Storage.createAlert (Storage.anomalyAlert log "critical") ;; mret tt)
                 scored.2
             ∧ InsertAlert.severity (Storage.anomalyAlert log "critical") = "critical")
          ∧ (isAnomalous a = false
             ∨ confidence a = Storage.threshold
             ∨ PrimFloat.leb (confidence a) Storage.threshold = true →
             Storage.detectAnomalies log w
             = Storage.raise log outcome.1 outcome.2 scored.2)).
Proof.
  intros outcome scored. split.
  - intros Herr Hcrit.
    assert (Storage.detectAnomalies log w = Storage.raise log outcome.1 outcome.2 w) as Heq.
    { unfold Storage.detectAnomalies. subst outcome.
      destruct (Storage.scan _ _ _ _) as [t sev].
      apply String.eqb_neq in Herr, Hcrit. by rewrite Herr, Hcrit. }
    split; [done|]. rewrite Heq.
    apply (step_raise is_scorer_call is_storage_not_scorer_call).
  - intros Hlevel. subst scored.
    assert (String.eqb (Log.level log) "error"
            || String.eqb (Log.level log) "critical" = true) as Hcond.
    { apply orb_true_iff. destruct Hlevel as [->| ->]; auto. }
    destruct (analyzeLogForAnomalies_returns (Log.message log) (Storage.logContext log) w)
      as [a Ha].
    exists a. split; [done|].
    unfold Storage.detectAnomalies. subst outcome.
    destruct (Storage.scan _ _ _ _) as [t sev].
    rewrite Hcond. unfold mbind, M_bind.
    destruct (analyzeLogForAnomalies (Log.message log) (Storage.logContext log) w)
      as [[a'|e] w1]; simpl in Ha; [injection Ha as ->|discriminate].
    simpl. split.
    + intros -> ->. done.
    + intros [->|[->|Hle]]; [done|by rewrite andb_false_r|].
      by rewrite (le_threshold_not_gt _ Hle), andb_false_r.
Qed.

(** C8, witness: a [critical] log that no detector matches, and a scorer
    that reports an anomaly with confidence 0.9. *)
Lemma scorer_consulted_and_escalates_witness :
  let log := Sample.stored Sample.outage_log in
  let w := Sample.scored_world (Parsed true 0x1.ccccccccccccdp-1 None) in
  let w' := (Storage.detectAnomalies log w).2 in
  (Log.level log = "error" ∨ Log.level log = "critical")
  ∧ Storage.scan Storage.patterns log false "info" = (false, "info")
  ∧ Alert.severity <$> alerts (db w') !! 100 = Some "critical"
  ∧ List.filter is_scorer_call (trace w')
    = [ScorerCall (Log.message log) (Storage.logContext log)].
Proof.
  intros log w w'.
  destruct (scorer_consulted_and_escalates log w) as [_ H].
  destruct (H (or_intror eq_refl)) as (a & Ha & Hup & _).
  injection Ha as <-.
  destruct (Hup eq_refl eq_refl) as [Heq _].
  subst w'. rewrite Heq.
  split; [right; reflexivity|]. split; [vm_compute; reflexivity|].
  split; vm_compute; reflexivity.
Defined.

(** ** The rule engine *)

Lemma createAlert_ok ins w :
  rejects_next w = false →
  ∃ w', Storage.createAlert ins w
        = (Ok (Storage.alert_row ins (next_id (db w)) (now w)), w')
        ∧ trace w'
          = trace w ++ [DbInsertAlert (Storage.alert_row ins (next_id (db w)) (now w))].
Proof.
  intros Hok. unfold Storage.createAlert, Storage.insert_alert, mbind, M_bind.
  rewrite (db_statement_ok _ _ Hok). simpl.
  rewrite db_after_statement, now_after_statement, trace_after_statement.
  by eexists.
Qed.

Lemma no_fault_no_rejection w : faults w = [] → rejects_next w = false.
Proof. unfold rejects_next. by intros ->. Qed.

Lemma any_event_allowed e : is_storage e = true → (λ _ : Event, false) e = false.
Proof. done. Qed.

Section RuleEngineFacts.

Variable JSON_parse : string → option (list RuleCondition.t).
Variable new_RegExp_i : string → option (string → bool).

Lemma evaluateRule_empty rule log w :
  JSON_parse (AlertingRule.condition rule) = Some [] →
  Storage.evaluateRule JSON_parse new_RegExp_i rule log w
  = (Storage.createAlert (Storage.ruleAlert rule log) ;; mret tt) w.
Proof. intros H. unfold Storage.evaluateRule. by rewrite H. Qed.

(** A turn of the loop never throws: the loop goes on to the next rule. *)
Lemma tryRule_returns rule log w :
  (Storage.tryRule JSON_parse new_RegExp_i rule log w).1 = Ok tt.
Proof.
  unfold Storage.tryRule, try_catch.
  by destruct (Storage.evaluateRule _ _ _ _ _) as [[[]|e] w1].
Qed.

Lemma tryRule_empty rule log w :
  JSON_parse (AlertingRule.condition rule) = Some [] →
  rejects_next w = false →
  trace (Storage.tryRule JSON_parse new_RegExp_i rule log w).2
  = trace w ++ [DbInsertAlert
                  (Storage.alert_row (Storage.ruleAlert rule log) (next_id (db w)) (now w))].
Proof.
  intros Hparse Hok. unfold Storage.tryRule, try_catch.
  rewrite (evaluateRule_empty _ _ _ Hparse). unfold mbind, M_bind.
  destruct (createAlert_ok (Storage.ruleAlert rule log) w Hok) as (w' & -> & Ht).
  done.
Qed.

Lemma loop_reaches_empty_rule rules rule log w :
  faults w = [] →
  rule ∈ rules →
  JSON_parse (AlertingRule.condition rule) = Some [] →
  ∃ pre id stamp post,
    trace (for_of rules (λ r, Storage.tryRule JSON_parse new_RegExp_i r log) w).2
    = trace w ++ pre
        ++ DbInsertAlert (Storage.alert_row (Storage.ruleAlert rule log) id stamp) :: post.
Proof.
  intros Hf Hin Hparse. revert w Hf.
  induction rules as [|r rs IH]; intros w Hf; [by apply elem_of_nil in Hin|].
  simpl. unfold mbind, M_bind.
  pose proof (tryRule_returns r log w) as Hret.
  pose proof (step_tryRule _ any_event_allowed JSON_parse new_RegExp_i r log w)
    as (_ & _ & _ & _ & Hf1 & evs1 & Ht1 & _).
  destruct (Storage.tryRule JSON_parse new_RegExp_i r log w) as [[[]|e] w1] eqn:Hr;
    simpl in *; [|done].
  apply elem_of_cons in Hin as [->|Hin].
  - pose proof (tryRule_empty r log w Hparse (no_fault_no_rejection w Hf)) as Ht.
    rewrite Hr in Ht. simpl in Ht.
    pose proof (preserves_for_of (storage_step (λ _, false)) rs
                  (λ r0, Storage.tryRule JSON_parse new_RegExp_i r0 log)
                  (λ r0, step_tryRule _ any_event_allowed JSON_parse new_RegExp_i r0 log)
                  w1) as (_ & _ & _ & _ & _ & evs2 & Ht2 & _).
    exists [], (next_id (db w)), (now w), evs2.
    by rewrite Ht2, Ht, <- app_assoc.
  - destruct (IH Hin w1 (Hf1 Hf)) as (pre & id & stamp & post & Ht).
    exists (evs1 ++ pre), id, stamp, post.
    by rewrite Ht, Ht1, <- !app_assoc.
Qed.

(** C1, as the code has it.  A rule whose parsed condition list is empty
    matches: [every] over no condition is [true], the rule's turn of the
    loop requests the rule's alert, and, when no database statement
    rejects, rule evaluation for any log event stores an alert for every
    such enabled rule, with the rule's name as title, the rule's
    severity, and status [active]. *)
Theorem empty_condition_rule_matches rule log w :
  JSON_parse (AlertingRule.condition rule) = Some [] →
  Storage.evaluateConditions new_RegExp_i [] (Storage.contextOf log) = true
  ∧ Storage.evaluateRule JSON_parse new_RegExp_i rule log w
    = (Storage.createAlert (Storage.ruleAlert rule log) ;; mret tt) w
  ∧ (faults w = [] →
     AlertingRule.enabled rule = true →
     rule ∈ alertingRules (db w) →
     ∃ pre a post,
       trace (Storage.evaluateRulesForLog JSON_parse new_RegExp_i log w).2
       = trace w ++ pre ++ DbInsertAlert a :: post
       ∧ Alert.title a = AlertingRule.name rule
       ∧ Alert.severity a = AlertingRule.severity rule
       ∧ Alert.status a = "active").
Proof.
  intros Hparse. split; [done|]. split; [by apply evaluateRule_empty|].
  intros Hf Hen Hin.
  unfold Storage.evaluateRulesForLog, Storage.getAlertingRules, mbind, M_bind.
  rewrite (db_statement_ok _ _ (no_fault_no_rejection w Hf)).
  unfold after_statement. rewrite Hf. simpl.
  set (w1 := set_trace (trace w ++ [DbSelectRules]) w).
  assert (rule ∈ List.filter AlertingRule.enabled (alertingRules (db w))) as Hin'.
  { apply list_elem_of_In, filter_In. split; [by apply list_elem_of_In|done]. }
  destruct (loop_reaches_empty_rule _ rule log w1 Hf Hin' Hparse)
    as (pre & id & stamp & post & Ht).
  exists (DbSelectRules :: pre),
    (Storage.alert_row (Storage.ruleAlert rule log) id stamp), post.
  split; [|done].
  rewrite Ht. subst w1. simpl. by rewrite <- app_assoc.
Qed.

End RuleEngineFacts.

(** C1, witness: the rule the rule form offers by default. *)
Lemma empty_condition_rule_matches_witness :
  let log := Sample.stored Sample.firewall_log in
  let w := Sample.world [Sample.empty_rule] [] in
  Sample.JSON_parse (AlertingRule.condition Sample.empty_rule) = Some []
  ∧ Storage.evaluateConditions Sample.new_RegExp_i [] (Storage.contextOf log) = true
  ∧ ∃ pre a post,
      trace (Storage.evaluateRulesForLog Sample.JSON_parse Sample.new_RegExp_i log w).2
      = trace w ++ pre ++ DbInsertAlert a :: post
      ∧ Alert.title a = "Catch all"
      ∧ Alert.severity a = "low"
      ∧ Alert.status a = "active".
Proof.
  intros log w. split; [reflexivity|].
  destruct (empty_condition_rule_matches Sample.JSON_parse Sample.new_RegExp_i
              Sample.empty_rule log w eq_refl) as (H1 & _ & H3).
  split; [exact H1|].
  apply (H3 eq_refl eq_refl). apply list_elem_of_here.
Defined.

(** C1, counterexample: an enabled rule with the condition text [[]];
    rule evaluation for a log event stores the rule's alert. *)
Lemma empty_condition_rule_counterexample :
  let log := Sample.stored Sample.firewall_log in
  let w := Sample.world [Sample.empty_rule] [] in
  let w' := (Storage.evaluateRulesForLog Sample.JSON_parse Sample.new_RegExp_i log w).2 in
  Sample.JSON_parse (AlertingRule.condition Sample.empty_rule) = Some []
  ∧ alerts (db w) = ∅
  ∧ Alert.title <$> alerts (db w') !! 100 = Some (AlertingRule.name Sample.empty_rule)
  ∧ trace w'
    = [DbSelectRules;
       DbInsertAlert (Storage.alert_row (Storage.ruleAlert Sample.empty_rule log) 100 5)].
Proof. vm_compute. done. Qed.

(** ** The ingestion route *)

(** *** The segments of the asynchronous functions *)

(** The two segments of [analyzeLogForAnomalies] make up the function. *)
Lemma analyzeLogForAnomalies_segments m c w :
  analyzeLogForAnomalies m c w
  = (reply ← analyzeLogForAnomalies_call m c; analyzeLogForAnomalies_resume reply) w.
Proof.
  unfold analyzeLogForAnomalies, analyzeLogForAnomalies_call,
    analyzeLogForAnomalies_resume, try_catch, mbind, M_bind, gets.
  cbn beta iota. destruct (openai w) as [create|]; [|done]. simpl.
  by destruct (create m c).
Qed.

Lemma analyzeLogForAnomalies_call_returns m c w :
  ∃ reply, (analyzeLogForAnomalies_call m c w).1 = Ok reply.
Proof.
  unfold analyzeLogForAnomalies_call, mbind, M_bind, gets. cbn beta iota.
  destruct (openai w); simpl; eauto.
Qed.

Lemma analyzeLogForAnomalies_resume_returns reply w :
  ∃ a, (analyzeLogForAnomalies_resume reply w).1 = Ok a.
Proof. destruct reply as [[|? ? ?]|]; simpl; eauto. Qed.

Ltac unbind :=
  unfold try_catch, console_error, emit, modify, gets, mbind, M_bind, mret, M_ret;
  cbn beta iota.

Lemma raise_call_run_on log t sev w :
  (d ← Storage.raise_call log t sev; run_on d) w
  = try_catch (Storage.raise log t sev)
      (λ err, console_error "Anomaly detection error:") w.
Proof.
  unfold Storage.raise_call, Storage.raise, run_on, Storage.detectAnomalies_resume.
  unbind. destruct t; [|done].
  by destruct (Storage.createAlert _ w) as [[a|e] w1].
Qed.

(** The segments of [detectAnomalies], run one after the other, make up
    the function under the [catch] handler that [createLog] gives it. *)
Lemma detectAnomalies_segments log w :
  (d ← Storage.detectAnomalies_call log; run_on d) w
  = try_catch (Storage.detectAnomalies log)
      (λ err, console_error "Anomaly detection error:") w.
Proof.
  unfold Storage.detectAnomalies_call, Storage.detectAnomalies.
  destruct (Storage.scan _ _ _ _) as [t sev].
  destruct (_ || _); [|apply raise_call_run_on].
  unbind. rewrite analyzeLogForAnomalies_segments. unbind.
  destruct (analyzeLogForAnomalies_call_returns (Log.message log)
              (Storage.logContext log) w) as [reply Hcall].
  destruct (analyzeLogForAnomalies_call _ _ w) as [o w1]. simpl in Hcall. subst o.
  unfold run_on, Storage.detectAnomalies_resume, Storage.raise_call, Storage.raise.
  unbind.
  destruct (analyzeLogForAnomalies_resume_returns reply w1) as [a Hres].
  destruct (analyzeLogForAnomalies_resume reply w1) as [o w2]. simpl in Hres. subst o.
  unbind.
  destruct (isAnomalous a && _); [|destruct t; [|done]].
  all: by destruct (Storage.createAlert _ w2) as [[a'|e'] w3].
Qed.

(** *** The event loop keeps to the pipeline *)

Section LoopStep.

Variable bad : Event → bool.
Hypothesis bad_pipeline : ∀ e, is_pipeline e = true → bad e = false.

#[global] Instance loop_step_refl : Reflexive (loop_step bad).
Proof. intros w. split_and!; try done. exists []. by rewrite app_nil_r. Qed.

#[global] Instance loop_step_trans : Transitive (loop_step bad).
Proof.
  intros w1 w2 w3 (Ho & Hn & evs & Ht & Hb) (Ho' & Hn' & evs' & Ht' & Hb').
  split_and!; try congruence.
  exists (evs ++ evs'). split.
  - by rewrite Ht', Ht, app_assoc.
  - by rewrite existsb_app, Hb, Hb'.
Qed.

Lemma loop_emit e : bad e = false → preserves (loop_step bad) (emit e).
Proof.
  intros He w. split_and!; try done. exists [e]. split; [done|].
  simpl. by rewrite He.
Qed.

Lemma loop_set_db d : preserves (loop_step bad) (modify (set_db d)).
Proof. intros w. split_and!; try done. exists []. simpl. by rewrite app_nil_r. Qed.

Lemma loop_set_pending f :
  preserves (loop_step bad) (modify (λ w, set_pending (f w) w)).
Proof. intros w. split_and!; try done. exists []. simpl. by rewrite app_nil_r. Qed.

Lemma loop_insert_into_alerts :
  preserves (loop_step bad) (db_statement InsertIntoAlerts).
Proof.
  intros w. unfold db_statement.
  destruct (faults w) as [|[] fs]; simpl.
  - reflexivity.
  - split_and!; try done. exists [DbFailure InsertIntoAlerts]. split; [done|].
    simpl. by rewrite bad_pipeline.
  - split_and!; try done. exists []. by rewrite app_nil_r.
Qed.

Lemma loop_createAlert ins : preserves (loop_step bad) (Storage.createAlert ins).
Proof.
  unfold Storage.createAlert, Storage.insert_alert. frame.
  - apply loop_insert_into_alerts.
  - apply loop_set_db.
  - by apply loop_emit, bad_pipeline.
Qed.

Lemma loop_console_error what : preserves (loop_step bad) (console_error what).
Proof. by apply loop_emit, bad_pipeline. Qed.

Lemma loop_raise_call log t sev :
  preserves (loop_step bad) (Storage.raise_call log t sev).
Proof.
  intros w. unfold Storage.raise_call. destruct t; [|reflexivity].
  pose proof (loop_createAlert (Storage.anomalyAlert log sev) w) as H.
  by destruct (Storage.createAlert _ w) as [[a|e] w1].
Qed.

Lemma loop_detectAnomalies_call log :
  preserves (loop_step bad) (Storage.detectAnomalies_call log).
Proof.
  unfold Storage.detectAnomalies_call, analyzeLogForAnomalies_call.
  destruct (Storage.scan _ _ _ _) as [t sev].
  frame; try apply loop_raise_call. by apply loop_emit, bad_pipeline.
Qed.

Lemma loop_detectAnomalies_resume d :
  preserves (loop_step bad) (Storage.detectAnomalies_resume d).
Proof.
  unfold Storage.detectAnomalies_resume, analyzeLogForAnomalies_resume.
  frame; try apply loop_raise_call; apply loop_console_error.
Qed.

Lemma loop_startDetection log : preserves (loop_step bad) (Storage.startDetection log).
Proof.
  unfold Storage.startDetection. frame.
  - apply loop_detectAnomalies_call.
  - apply (loop_set_pending (λ w, pending w ++ option_list a)).
Qed.

Lemma loop_resume i : preserves (loop_step bad) (Storage.resume i).
Proof.
  intros w. unfold Storage.resume. destruct (pending w !! i) as [d|]; [|reflexivity].
  assert (preserves (loop_step bad)
            (next ← Storage.detectAnomalies_resume d;
             modify (λ w, set_pending (match next with
                                       | Some d' => <[i := d']> (pending w)
                                       | None => delete i (pending w)
                                       end) w))) as H; [|apply H].
  frame_step; [apply loop_detectAnomalies_resume|].
  apply (loop_set_pending (λ w, match a with
                                | Some d' => <[i := d']> (pending w)
                                | None => delete i (pending w)
                                end)).
Qed.

Lemma loop_arrive ready : preserves (loop_step bad) (EventLoop.arrive ready).
Proof. unfold EventLoop.arrive. frame. apply loop_resume. Qed.

Lemma loop_await {A} ready (p : M A) :
  preserves (loop_step bad) p → preserves (loop_step bad) (EventLoop.await ready p).
Proof.
  intros Hp w. unfold EventLoop.await. specialize (Hp w).
  destruct (p w) as [o w1]. simpl in *. etrans; [exact Hp|apply loop_arrive].
Qed.

Lemma loop_broadcast type data : preserves (loop_step bad) (Stream.broadcast type data).
Proof.
  intros w. unfold Stream.broadcast, mbind, M_bind, gets. cbn beta iota.
  destruct (wsServer (logStreamManager w)); [|reflexivity]. simpl.
  split_and!; try done. eexists [_]. split; [done|].
  simpl. by rewrite bad_pipeline.
Qed.

Lemma loop_tryRule parse re schedule k rule log :
  preserves (loop_step bad) (EventLoop.tryRule parse re schedule k rule log).
Proof.
  unfold EventLoop.tryRule, EventLoop.evaluateRule.
  frame; try apply loop_console_error. apply loop_await, loop_createAlert.
Qed.

End LoopStep.

(** *** What never throws *)

Lemma resume_returns i w : (Storage.resume i w).1 = Ok tt.
Proof.
  unfold Storage.resume. destruct (pending w !! i) as [d|]; [|done].
  unfold mbind, M_bind.
  assert (∃ next, (Storage.detectAnomalies_resume d w).1 = Ok next) as [next H].
  { destruct d as [log t sev reply|log [a|]]; simpl; eauto.
    unfold mbind, M_bind.
    destruct (analyzeLogForAnomalies_resume_returns reply w) as [a Ha].
    destruct (analyzeLogForAnomalies_resume reply w) as [o w1]. simpl in Ha. subst o.
    unfold Storage.raise_call.
    destruct (isAnomalous a && _); [|destruct t; [|by eauto]].
    all: destruct (Storage.createAlert _ w1) as [[?|?] ?]; simpl; eauto. }
  destruct (Storage.detectAnomalies_resume d w) as [o w1]. simpl in H. by subst o.
Qed.

Lemma arrive_returns ready w : (EventLoop.arrive ready w).1 = Ok tt.
Proof.
  unfold EventLoop.arrive. revert w. induction ready as [|i ready IH]; intros w; [done|].
  simpl. unfold mbind, M_bind. pose proof (resume_returns i w) as H.
  destruct (Storage.resume i w) as [o w1]. simpl in H. subst o. apply IH.
Qed.

Lemma startDetection_returns log w : (Storage.startDetection log w).1 = Ok tt.
Proof.
  unfold Storage.startDetection, Storage.detectAnomalies_call, mbind, M_bind.
  destruct (Storage.scan _ _ _ _) as [t sev].
  destruct (_ || _).
  - destruct (analyzeLogForAnomalies_call_returns (Log.message log)
                (Storage.logContext log) w) as [reply H].
    unfold mbind, M_bind.
    destruct (analyzeLogForAnomalies_call _ _ w) as [o w1]. simpl in H. by subst o.
  - unfold Storage.raise_call. destruct t; [|done].
    by destruct (Storage.createAlert _ w) as [[?|?] ?].
Qed.

Lemma loop_tryRule_returns parse re schedule k rule log w :
  (EventLoop.tryRule parse re schedule k rule log w).1 = Ok tt.
Proof.
  unfold EventLoop.tryRule, try_catch.
  by destruct (EventLoop.evaluateRule _ _ _ _ _ _ _) as [[[]|e] w1].
Qed.

(** *** With nothing arriving, the request is the handler's own path *)







(** *** The steps of the request *)

Lemma insert_log_ok insertLog w :
  rejects_next w = false →
  let log := Storage.log_row insertLog (next_id (db w)) (now w) in
  ∃ w1, Storage.insert_log insertLog w = (Ok log, w1)
        ∧ trace w1 = trace w ++ [DbInsertLog log]
        ∧ openai w1 = openai w
        ∧ pending w1 = pending w
        ∧ logs (db w1) = log :: logs (db w).
Proof.
  intros Hok log. unfold Storage.insert_log, mbind, M_bind.
  rewrite (db_statement_ok _ _ Hok). simpl.
  rewrite db_after_statement, now_after_statement, trace_after_statement.
  eexists. split_and!; try done; unfold after_statement; by destruct (faults w).
Qed.


(** The rule query leaves one event, answered or rejected. *)
Lemma getAlertingRules_query w :
  ∃ query, is_rule_engine query = true
           ∧ trace (Storage.getAlertingRules w).2 = trace w ++ [query]
           ∧ openai (Storage.getAlertingRules w).2 = openai w
           ∧ now (Storage.getAlertingRules w).2 = now w
           ∧ (is_answered query = true
              ↔ ∃ rules, (Storage.getAlertingRules w).1 = Ok rules).
Proof.
  unfold Storage.getAlertingRules, mbind, M_bind.
  destruct (rejects_next w) eqn:Hrej.
  - rewrite (db_statement_rejects _ _ Hrej). simpl.
    exists (DbFailure SelectRules). split_and!; try done.
    split; [done|]. by intros [rules ?].
  - rewrite (db_statement_ok _ _ Hrej). simpl. rewrite trace_after_statement.
    exists DbSelectRules. split_and!; try done.
    + unfold after_statement. by destruct (faults w).
    + unfold after_statement. by destruct (faults w).
    + split; [eauto|done].
Qed.

(** A broadcast returns normally, leaves the pending promises alone and
    adds at most its own event to the trace. *)
Lemma broadcast_returns type data w :
  ∃ w' evs, Stream.broadcast type data w = (Ok tt, w')
            ∧ pending w' = pending w
            ∧ trace w' = trace w ++ evs
            ∧ forallb is_broadcast evs = true.
Proof.
  unfold Stream.broadcast, mbind, M_bind, gets. cbn beta iota.
  destruct (wsServer (logStreamManager w)); simpl.
  - eexists _, [_]. by split_and!.
  - exists w, []. by rewrite app_nil_r.
Qed.

Lemma is_pipeline_not_landmark e : is_pipeline e = true → is_landmark e = false.
Proof. by destruct e as [| | | |[]| | | |]. Qed.

Section Ingestion.

Variable JSON_parse : string → option (list RuleCondition.t).
Variable new_RegExp_i : string → option (string → bool).

Lemma loop_rule_loop schedule log (todo : list (nat * AlertingRule.t)) w :
  let body := λ '(k, rule), EventLoop.tryRule JSON_parse new_RegExp_i schedule k rule log in
  (for_of todo body w).1 = Ok tt
  ∧ loop_step is_landmark w (for_of todo body w).2.
Proof.
  intros body. revert w. induction todo as [|[k rule] todo IH]; intros w.
  - split; [done|reflexivity].
  - simpl. unfold mbind, M_bind.
    pose proof (loop_tryRule_returns JSON_parse new_RegExp_i schedule k rule log w) as Hr.
    pose proof (loop_tryRule _ is_pipeline_not_landmark JSON_parse new_RegExp_i
                  schedule k rule log w) as Hs.
    destruct (EventLoop.tryRule _ _ _ _ _ _ w) as [o w1]. simpl in Hr, Hs. subst o.
    destruct (IH w1) as [Hret Hstep]. split; [done|]. by etrans.
Qed.

(** The shape of every run of the request that stores its log: the log's
    insertion, events of the pipeline, the rule query, events of the
    pipeline, the response. *)
Lemma request_shape schedule insertLog w :
  rejects_next w = false →
  let log := Storage.log_row insertLog (next_id (db w)) (now w) in
  ∃ w' evs0 started evs1 query evs2,
    EventLoop.post_api_logs JSON_parse new_RegExp_i schedule (Valid insertLog) w
    = (Ok tt, w')
    ∧ trace w'
      = trace w ++ DbInsertLog log :: (evs0 ++ started ++ evs1) ++ query :: evs2
          ++ [if is_answered query
              then Response 201 (JsonLog log)
              else Response 400 (JsonError "Invalid log data")]
    ∧ is_rule_engine query = true
    ∧ existsb is_landmark (evs0 ++ started ++ evs1) = false
    ∧ existsb is_landmark evs2 = false
    ∧ ∃ w2, openai w2 = openai w
            ∧ trace (Storage.startDetection log w2).2 = trace w2 ++ started.
Proof.
  intros Hok log.
  unfold EventLoop.post_api_logs, EventLoop.createLog, EventLoop.evaluateRulesForLog,
    EventLoop.await, try_catch, Routes.schema_parse, Routes.respond,
    Stream.broadcastLogCreated, mbind, M_bind, mret, M_ret.
  destruct (insert_log_ok insertLog w Hok) as (w1 & -> & Ht1 & Ho1 & _ & _). fold log.
  (* arrivals during the insertion *)
  pose proof (loop_arrive _ is_pipeline_not_landmark (schedule 0) w1)
    as (Ho2 & _ & evs0 & Ht2 & Hb0).
  set (w2 := (EventLoop.arrive (schedule 0) w1).2) in *.
  (* the first segment of detection *)
  pose proof (startDetection_returns log w2) as Hr3.
  pose proof (loop_startDetection _ is_pipeline_not_landmark log w2)
    as (Ho3 & _ & started & Ht3 & Hb3).
  destruct (Storage.startDetection log w2) as [o3 w3] eqn:Hstart.
  simpl in Hr3, Ho3, Ht3. subst o3.
  (* arrivals before the handler runs on *)
  pose proof (loop_arrive _ is_pipeline_not_landmark (schedule 1) w3)
    as (Ho4 & _ & evs4 & Ht4 & Hb4).
  set (w4 := (EventLoop.arrive (schedule 1) w3).2) in *.
  (* the broadcast *)
  pose proof (loop_broadcast _ is_pipeline_not_landmark "log_created"
                (WebSocket.OfLog log) w4) as (Ho5 & _ & evs5 & Ht5 & Hb5).
  destruct (broadcast_returns "log_created" (WebSocket.OfLog log) w4)
    as (w5 & ? & Hbroadcast & _).
  rewrite Hbroadcast in Ho5, Ht5 |- *. simpl in Ho5, Ht5.
  (* the rule query *)
  destruct (getAlertingRules_query w5) as (query & Hq & Ht6 & Ho6 & _ & Hanswered).
  destruct (Storage.getAlertingRules w5) as [o6 w6]. simpl in Ht6, Ho6, Hanswered.
  pose proof (loop_arrive _ is_pipeline_not_landmark (schedule 2) w6)
    as (Ho7 & _ & evs7 & Ht7 & Hb7).
  set (w7 := (EventLoop.arrive (schedule 2) w6).2) in *.
  assert (trace w5 = trace w ++ DbInsertLog log :: evs0 ++ started ++ evs4 ++ evs5) as Hpre.
  { rewrite Ht5, Ht4, Ht3, Ht2, Ht1, <- !app_assoc. done. }
  assert (existsb is_landmark (evs0 ++ started ++ evs4 ++ evs5) = false) as Hbpre.
  { by rewrite !existsb_app, Hb0, Hb3, Hb4, Hb5. }
  destruct o6 as [rules|e].
  - (* answered: the loop, then 201 *)
    assert (is_answered query = true) as Hyes by (apply Hanswered; eauto).
    destruct (loop_rule_loop schedule log
                (imap pair (List.filter AlertingRule.enabled rules)) w7)
      as [Hr8 (Ho8 & _ & evs8 & Ht8 & Hb8)].
    destruct (for_of _ _ w7) as [o8 w8]. simpl in Hr8, Ho8, Ht8. subst o8.
    eexists _, evs0, started, (evs4 ++ evs5), query, (evs7 ++ evs8).
    rewrite Hyes. split; [reflexivity|]. split_and!; try done.
    + simpl. rewrite Ht8, Ht7, Ht6, Hpre, <- !app_assoc. simpl. by rewrite <- !app_assoc.
    + by rewrite existsb_app, Hb7, Hb8.
    + exists w2. split; [congruence|]. by rewrite Hstart.
  - (* rejected: 400 *)
    assert (is_answered query = false) as Hno.
    { apply not_true_is_false. intros Heq. apply Hanswered in Heq as [rules ?]. done. }
    eexists _, evs0, started, (evs4 ++ evs5), query, evs7.
    rewrite Hno. split; [reflexivity|]. split_and!; try done.
    + simpl. rewrite Ht7, Ht6, Hpre, <- !app_assoc. simpl. by rewrite <- !app_assoc.
    + exists w2. split; [congruence|]. by rewrite Hstart.
Qed.

End Ingestion.

Section Awaited.

Variable JSON_parse : string → option (list RuleCondition.t).
Variable new_RegExp_i : string → option (string → bool).


End Awaited.



(** ** Containment of detection errors *)

(** Once the rule query is answered, rule evaluation returns, whatever
    the rules hold and whatever the alert insertions do. *)
Lemma evaluateRulesForLog_returns parse re log w :
  rejects_next w = false →
  (Storage.evaluateRulesForLog parse re log w).1 = Ok tt.
Proof.
  intros Hok. unfold Storage.evaluateRulesForLog, Storage.getAlertingRules, mbind, M_bind.
  rewrite (db_statement_ok _ _ Hok). simpl.
  generalize (set_trace (trace (after_statement w) ++ [DbSelectRules]) (after_statement w)).
  induction (List.filter _ _) as [|r rs IH]; intros w1; [done|].
  simpl. unfold mbind, M_bind.
  pose proof (tryRule_returns parse re r log w1) as Hr.
  destruct (Storage.tryRule parse re r log w1) as [[[]|e] w2]; [apply IH|done].
Qed.

(** C4, at the failing input.  The log insertion succeeds, the
    insertion of the anomaly alert that detection issues inside
    [createLog] succeeds, and the rule query rejects: the log is stored,
    and the request is answered with status 400 and the error
    [Invalid log data]. *)
Theorem rule_query_failure_fails_request :
  let w := Sample.world [Sample.empty_rule] [false; false; true] in
  let log := Sample.stored Sample.login_log in
  let w' := (Routes.post_api_logs Sample.JSON_parse Sample.new_RegExp_i
               (Valid Sample.login_log) w).2 in
  logs (db w') = [log]
  ∧ trace w'
    = [DbInsertLog log;
       DbInsertAlert (Storage.alert_row (Storage.anomalyAlert log "high") 101 5);
       Broadcast (WebSocket.mkMessage "log_created" (WebSocket.OfLog log) 5);
       DbFailure SelectRules;
       Response 400 (JsonError "Invalid log data")].
Proof. vm_compute. done. Qed.

(** ** Alerts of the pipeline and the subscribers *)

Lemma is_storage_not_broadcast e : is_storage e = true → is_broadcast e = false.
Proof. by destruct e. Qed.

(** Neither detection nor rule evaluation touches the registry or
    broadcasts. *)
Lemma pipeline_never_broadcasts parse re log w :
  storage_step is_broadcast w (Storage.detectAnomalies log w).2
  ∧ storage_step is_broadcast w (Storage.evaluateRulesForLog parse re log w).2.
Proof.
  split.
  - by apply (step_detectAnomalies _ is_storage_not_broadcast).
  - apply (step_evaluateRulesForLog _ is_storage_not_broadcast).
Qed.

(** The route for alerts created by hand broadcasts what it stores. *)
Lemma post_api_alerts_broadcasts :
  let log := Sample.stored Sample.login_log in
  let w' := (Routes.post_api_alerts (Valid (Storage.anomalyAlert log "high"))
               (Sample.world [] [])).2 in
  trace w'
  = [DbInsertAlert (Storage.alert_row (Storage.anomalyAlert log "high") 100 5);
     Broadcast (WebSocket.mkMessage "alert_created"
                  (WebSocket.OfAlert
                     (Storage.alert_row (Storage.anomalyAlert log "high") 100 5)) 5);
     Response 201 (JsonAlert (Storage.alert_row (Storage.anomalyAlert log "high") 100 5))].
Proof. vm_compute. done. Qed.

(** C2, at the failing input.  A log that the first detector and a rule
    both match is ingested with one open subscriber, and the detection
    promise is resumed until it settles.  Both alerts are stored with
    status [active]; the only broadcast of the run is the one of the
    log, and the open subscriber has received no [alert_created]
    message. *)
Theorem pipeline_alerts_not_broadcast :
  let w := Sample.world [Sample.empty_rule] [] in
  let log := Sample.stored Sample.login_log in
  let logCreated := WebSocket.mkMessage "log_created" (WebSocket.OfLog log) 5 in
  let w' := ((Routes.post_api_logs Sample.JSON_parse Sample.new_RegExp_i
                (Valid Sample.login_log) ;; Storage.resume 0) w).2 in
  alerts (db w') !! 101
  = Some (Storage.alert_row (Storage.anomalyAlert log "high") 101 5)
  ∧ alerts (db w') !! 102
    = Some (Storage.alert_row (Storage.ruleAlert Sample.empty_rule log) 102 5)
  ∧ InsertAlert.status (Storage.ruleAlert Sample.empty_rule log) = Some "active"
  ∧ InsertAlert.status (Storage.anomalyAlert log "high") = Some "active"
  ∧ pending w' = []
  ∧ List.filter is_broadcast (trace w') = [Broadcast logCreated]
  ∧ WebSocket.sent ∘ ws <$> subscribers (logStreamManager w') !! "a" = Some [logCreated].
Proof. vm_compute. done. Qed.

(** * Further properties of the code *)

(** ** String primitives *)

Lemma string_app_nil (r : string) : "" +:+ r = r.
Proof. reflexivity. Qed.

Lemma string_app_cons a (s r : string) : String a s +:+ r = String a (s +:+ r).
Proof. reflexivity. Qed.

Lemma prefix_spec p s : String.prefix p s = true ↔ ∃ r, s = p +:+ r.
Proof.
  revert s. induction p as [|a p IH]; intros [|b s]; simpl.
  - split; [by exists ""|done].
  - split; [by exists (String b s)|done].
  - split; [done|by intros [r ?]].
  - destruct (ascii_dec a b) as [->|Hne].
    + rewrite IH. split; intros [r Hr]; exists r;
        rewrite string_app_cons in *; congruence.
    + split; [done|]. intros [r Hr]. rewrite string_app_cons in Hr. congruence.
Qed.

Lemma includes_unfold s sub :
  JS.includes s sub
  = if String.prefix sub s then true
    else match s with
         | EmptyString => false
         | String _ s' => JS.includes s' sub
         end.
Proof. by destruct s. Qed.

(** [includes] is the substring relation. *)
Lemma includes_spec s sub :
  JS.includes s sub = true ↔ ∃ pre post, s = pre +:+ sub +:+ post.
Proof.
  split.
  - induction s as [|a s IH]; rewrite includes_unfold;
      destruct (String.prefix sub _) eqn:Hp.
    + intros _. apply prefix_spec in Hp as [r Hr]. exists "", r.
      by rewrite string_app_nil.
    + discriminate.
    + intros _. apply prefix_spec in Hp as [r Hr]. exists "", r.
      by rewrite string_app_nil.
    + intros (pre & post & ->)%IH. by exists (String a pre), post.
  - intros (pre & post & ->). induction pre as [|a pre IH]; rewrite includes_unfold.
    + rewrite string_app_nil.
      assert (String.prefix sub (sub +:+ post) = true) as -> by (apply prefix_spec; eauto).
      done.
    + rewrite string_app_cons. by destruct (String.prefix sub _).
Qed.

Lemma array_includes_spec l v : JS.array_includes l v = true ↔ v ∈ l.
Proof.
  induction l as [|x l IH]; simpl.
  - split; [done|by intros ?%elem_of_nil].
  - rewrite orb_true_iff, IH, elem_of_cons, String.eqb_eq.
    split; intros [->|?]; auto.
Qed.

(** ** More of the condition evaluator *)

Section ConditionOperators.

Variable JSON_parse : string → option (list RuleCondition.t).
Variable new_RegExp_i : string → option (string → bool).

(** X1.  With operator [contains], the evaluator returns [true] iff the
    selected field is present, is not empty, and has the comparison value,
    turned into a string, as a substring (an array is joined with
    commas).  The test is case-sensitive: it is equality of code units. *)
Theorem contains_true_iff cond context :
  RuleCondition.operator cond = "contains" →
  Storage.evaluateCondition new_RegExp_i cond context = true
  ↔ ∃ v pre post,
      Storage.getValue cond context = Some v
      ∧ v ≠ ""
      ∧ v = pre +:+ RuleCondition.String_value (RuleCondition.value cond) +:+ post.
Proof.
  intros Hop. unfold Storage.evaluateCondition. rewrite Hop. simpl.
  destruct (Storage.getValue cond context) as [v|].
  2: { split; [done|]. by intros (v & ? & ? & ? & _). }
  destruct (String.eqb_spec v "") as [->|Hne].
  { split; [done|]. by intros (v & ? & ? & [= <-] & ? & _). }
  rewrite includes_spec. split.
  - intros (pre & post & Hv). by exists v, pre, post.
  - intros (v' & pre & post & [= <-] & _ & Hv). by exists pre, post.
Qed.

(** X2.  With operator [in], the evaluator returns [true] iff the
    selected field is present, is not empty, and is an element of the
    comparison value, which must be an array: against a string, even the
    field itself, the result is [false]. *)
Theorem in_true_iff cond context :
  RuleCondition.operator cond = "in" →
  Storage.evaluateCondition new_RegExp_i cond context = true
  ↔ ∃ v l,
      Storage.getValue cond context = Some v
      ∧ v ≠ ""
      ∧ RuleCondition.value cond = RuleCondition.Arr l
      ∧ v ∈ l.
Proof.
  intros Hop. unfold Storage.evaluateCondition. rewrite Hop. simpl.
  destruct (Storage.getValue cond context) as [v|].
  2: { split; [done|]. by intros (v & ? & ? & _). }
  destruct (String.eqb_spec v "") as [->|Hne].
  { split; [done|]. by intros (v & ? & [= <-] & ? & _). }
  destruct (RuleCondition.value cond) as [s|l].
  { split; [done|]. by intros (v' & l & _ & _ & ? & _). }
  rewrite array_includes_spec. split.
  - intros Hin. by exists v, l.
  - by intros (v' & l' & [= <-] & _ & [= <-] & Hin).
Qed.

(** X3.  A [matches] condition whose pattern does not compile is
    [false], not an error: the turn of a rule that holds such a condition
    returns normally and leaves the world as it is, with no alert and no
    error logged. *)
Theorem invalid_pattern_fails_closed cond conditions rule log w :
  RuleCondition.operator cond = "matches" →
  new_RegExp_i (RuleCondition.String_value (RuleCondition.value cond)) = None →
  cond ∈ conditions →
  JSON_parse (AlertingRule.condition rule) = Some conditions →
  Storage.evaluateCondition new_RegExp_i cond (Storage.contextOf log) = false
  ∧ Storage.tryRule JSON_parse new_RegExp_i rule log w = (Ok tt, w).
Proof.
  intros Hop Hre Hin Hparse.
  assert (Storage.evaluateCondition new_RegExp_i cond (Storage.contextOf log) = false) as Hc.
  { unfold Storage.evaluateCondition. rewrite Hop, Hre. simpl.
    destruct (Storage.getValue _ _) as [v|]; [|done]. by destruct (String.eqb v ""). }
  split; [done|]. unfold Storage.tryRule, try_catch.
  rewrite (evaluateRule_no_match JSON_parse new_RegExp_i rule conditions log w Hparse); [done|].
  by eapply evaluateConditions_false.
Qed.

(** X4.  A log whose address is [null] or empty has no [ip] field: every
    condition on [ip] is [false] for it, whatever the operator and the
    comparison value, and so is every condition list that holds one. *)
Theorem ip_condition_needs_address cond conditions log :
  RuleCondition.type cond = "ip" →
  Log.ipAddress log = None ∨ Log.ipAddress log = Some "" →
  Storage.evaluateCondition new_RegExp_i cond (Storage.contextOf log) = false
  ∧ (cond ∈ conditions →
     Storage.evaluateConditions new_RegExp_i conditions (Storage.contextOf log) = false).
Proof.
  intros Htype Hip.
  assert (Storage.evaluateCondition new_RegExp_i cond (Storage.contextOf log) = false) as Hc.
  { unfold Storage.evaluateCondition, Storage.getValue, Storage.contextOf.
    rewrite Htype. simpl. by destruct Hip as [-> | ->]. }
  split; [done|]. intros Hin. by eapply evaluateConditions_false.
Qed.

End ConditionOperators.

(** X1, witness: a message that holds the word. *)
Lemma contains_true_iff_witness :
  let cond := RuleCondition.mk "pattern" "contains" (RuleCondition.Str "admin") in
  let context := Storage.contextOf Sample2.admin_log in
  RuleCondition.operator cond = "contains"
  ∧ Storage.evaluateCondition Sample.new_RegExp_i cond context = true.
Proof.
  intros cond context. split; [reflexivity|].
  apply (contains_true_iff Sample.new_RegExp_i cond context); [reflexivity|].
  exists "Unauthorized access attempt to admin panel",
    "Unauthorized access attempt to ", " panel".
  repeat split. discriminate.
Defined.

(** X2, witness: the level of the log is one of two. *)
Lemma in_true_iff_witness :
  let cond := RuleCondition.mk "severity" "in" (RuleCondition.Arr ["error"; "critical"]) in
  let context := Storage.contextOf Sample2.admin_log in
  RuleCondition.operator cond = "in"
  ∧ Storage.evaluateCondition Sample.new_RegExp_i cond context = true.
Proof.
  intros cond context. split; [reflexivity|].
  apply (in_true_iff Sample.new_RegExp_i cond context); [reflexivity|].
  exists "critical", ["error"; "critical"].
  repeat split; [discriminate|]. apply list_elem_of_further, list_elem_of_here.
Defined.

(** X3, witness: a rule whose only condition has the pattern [(]. *)
Lemma invalid_pattern_fails_closed_witness :
  let cond := RuleCondition.mk "pattern" "matches" (RuleCondition.Str "(") in
  let parse := λ _ : string, Some [cond] in
  let w := Sample.world [Sample.empty_rule] [] in
  RuleCondition.operator cond = "matches"
  ∧ Sample2.new_RegExp_i (RuleCondition.String_value (RuleCondition.value cond)) = None
  ∧ Storage.tryRule parse Sample2.new_RegExp_i Sample.empty_rule Sample2.admin_log w
    = (Ok tt, w).
Proof.
  intros cond parse w. split; [reflexivity|]. split; [reflexivity|].
  refine (proj2 (invalid_pattern_fails_closed parse Sample2.new_RegExp_i cond [cond]
                   Sample.empty_rule Sample2.admin_log w eq_refl eq_refl _ eq_refl)).
  apply list_elem_of_here.
Defined.

(** X4, witness: a log without an address against an [ip] condition. *)
Lemma ip_condition_needs_address_witness :
  let cond := RuleCondition.mk "ip" "contains" (RuleCondition.Str "") in
  RuleCondition.type cond = "ip"
  ∧ Log.ipAddress Sample2.admin_log = None
  ∧ Storage.evaluateCondition Sample.new_RegExp_i cond
      (Storage.contextOf Sample2.admin_log) = false.
Proof.
  intros cond. split; [reflexivity|]. split; [reflexivity|].
  exact (proj1 (ip_condition_needs_address Sample.new_RegExp_i cond [cond]
                  Sample2.admin_log eq_refl (or_introl eq_refl))).
Defined.

(** ** More of the rule engine *)

Lemma inserted_alerts_app t1 t2 :
  inserted_alerts (t1 ++ t2) = inserted_alerts t1 ++ inserted_alerts t2.
Proof. apply omap_app. Qed.

Lemma createAlert_no_fault ins w :
  faults w = [] →
  let row := Storage.alert_row ins (next_id (db w)) (now w) in
  Storage.createAlert ins w
  = (Ok row,
     set_trace (trace w ++ [DbInsertAlert row])
       (set_db (mkDb (logs (db w)) (<[next_id (db w) := row]> (alerts (db w)))
                  (alertingRules (db w)) (S (next_id (db w)))) w)).
Proof.
  intros Hf row. unfold Storage.createAlert, Storage.insert_alert, mbind, M_bind,
    db_statement. by rewrite Hf.
Qed.

Lemma filter_filter {A} (f g : A → bool) l :
  List.filter f (List.filter g l) = List.filter (λ x, g x && f x) l.
Proof.
  induction l as [|x l IH]; [done|]. simpl.
  destruct (g x); simpl; [|done]. destruct (f x); by rewrite IH.
Qed.

Section RuleLoop.

Variable JSON_parse : string → option (list RuleCondition.t).
Variable new_RegExp_i : string → option (string → bool).

Lemma evaluateRule_cases rule log w :
  Storage.evaluateRule JSON_parse new_RegExp_i rule log w
  = match JSON_parse (AlertingRule.condition rule) with
    | Some conditions =>
        if Storage.evaluateConditions new_RegExp_i conditions (Storage.contextOf log)
        then (Storage.createAlert (Storage.ruleAlert rule log) ;; mret tt) w
        else (Ok tt, w)
    | None => (Throw SyntaxError, w)
    end.
Proof.
  unfold Storage.evaluateRule.
  destruct (JSON_parse _) as [conditions|]; [|done].
  unfold mbind at 1, M_bind at 1. simpl.
  by destruct (Storage.evaluateConditions _ _ _).
Qed.

Lemma tryRule_step rule log w :
  faults w = [] →
  ∃ w1 evs,
    Storage.tryRule JSON_parse new_RegExp_i rule log w = (Ok tt, w1)
    ∧ faults w1 = []
    ∧ now w1 = now w
    ∧ trace w1 = trace w ++ evs
    ∧ if rule_fires JSON_parse new_RegExp_i log rule
      then inserted_alerts evs
           = [Storage.alert_row (Storage.ruleAlert rule log) (next_id (db w)) (now w)]
           ∧ next_id (db w1) = S (next_id (db w))
      else inserted_alerts evs = [] ∧ next_id (db w1) = next_id (db w).
Proof.
  intros Hf. unfold Storage.tryRule, try_catch, rule_fires.
  rewrite evaluateRule_cases.
  destruct (JSON_parse (AlertingRule.condition rule)) as [conditions|].
  - destruct (Storage.evaluateConditions _ _ _).
    + unfold mbind, M_bind. rewrite (createAlert_no_fault _ _ Hf).
      eexists _, [_]. by split_and!.
    + exists w, []. rewrite app_nil_r. by split_and!.
  - eexists _, [_]. by split_and!.
Qed.

Lemma rule_loop_fires rules log w :
  faults w = [] →
  let body := λ r, Storage.tryRule JSON_parse new_RegExp_i r log in
  (for_of rules body w).1 = Ok tt
  ∧ ∃ evs,
      trace (for_of rules body w).2 = trace w ++ evs
      ∧ inserted_alerts evs
        = imap (λ k r, Storage.alert_row (Storage.ruleAlert r log)
                         (next_id (db w) + k) (now w))
            (List.filter (rule_fires JSON_parse new_RegExp_i log) rules).
Proof.
  intros Hf body. revert w Hf.
  induction rules as [|r rs IH]; intros w Hf.
  { split; [done|]. exists []. by rewrite app_nil_r. }
  simpl. unfold mbind, M_bind.
  destruct (tryRule_step r log w Hf) as (w1 & evs1 & Hr & Hf1 & Hn1 & Ht1 & Hfire).
  subst body. cbn beta. rewrite Hr.
  destruct (IH w1 Hf1) as (Hok & evs2 & Ht2 & Hins2).
  split; [done|]. exists (evs1 ++ evs2). split.
  { by rewrite Ht2, Ht1, app_assoc. }
  rewrite inserted_alerts_app, Hins2, Hn1.
  destruct (rule_fires JSON_parse new_RegExp_i log r); destruct Hfire as [-> ->]; simpl.
  - rewrite Nat.add_0_r. f_equal. apply imap_ext. intros k r' _. simpl.
    f_equal. lia.
  - done.
Qed.

Lemma request_of_rule_rows log stamp (rules : list AlertingRule.t) :
  ∀ n, imap (λ k, alert_request
                  ∘ (λ r, Storage.alert_row (Storage.ruleAlert r log) (n + k) stamp))
         rules
       = (λ r, Storage.ruleAlert r log) <$> rules.
Proof.
  induction rules as [|r rs IH]; intros n; [done|].
  rewrite imap_cons, fmap_cons. f_equal. rewrite <- (IH (S n)). apply imap_ext.
  intros k r' _. simpl. by replace (n + S k) with (S (n + k)) by lia.
Qed.

(** X6.  When no database statement rejects, rule evaluation returns
    and issues exactly one alert insertion for each enabled rule that
    matches the log, in the order of the rules, each with that rule's
    alert request, and none for any other rule: a matching rule does not
    stop the rules after it. *)
Theorem rules_fire_independently log w :
  faults w = [] →
  let w' := (Storage.evaluateRulesForLog JSON_parse new_RegExp_i log w).2 in
  let fired :=
    List.filter (λ r, AlertingRule.enabled r && rule_fires JSON_parse new_RegExp_i log r)
      (alertingRules (db w)) in
  (Storage.evaluateRulesForLog JSON_parse new_RegExp_i log w).1 = Ok tt
  ∧ ∃ evs,
      trace w' = trace w ++ DbSelectRules :: evs
      ∧ alert_request <$> inserted_alerts evs = (λ r, Storage.ruleAlert r log) <$> fired.
Proof.
  intros Hf w' fired. subst w' fired.
  unfold Storage.evaluateRulesForLog, Storage.getAlertingRules, mbind, M_bind,
    db_statement. rewrite Hf. simpl.
  set (w1 := set_trace (trace w ++ [DbSelectRules]) w).
  destruct (rule_loop_fires (List.filter AlertingRule.enabled (alertingRules (db w)))
              log w1 Hf) as (Hok & evs & Ht & Hins).
  split; [done|]. exists evs. split.
  - rewrite Ht. subst w1. simpl. by rewrite <- app_assoc.
  - by rewrite Hins, filter_filter, fmap_imap, request_of_rule_rows.
Qed.

(** X7.  A rule whose stored condition text does not parse is skipped:
    its turn of the loop returns, logs an error that names the rule and
    has no other effect, and the loop goes on with the next rule. *)
Theorem unparseable_rule_is_skipped rule rules log w :
  JSON_parse (AlertingRule.condition rule) = None →
  let logged :=
    set_trace (trace w ++ [ConsoleError ("Error evaluating rule "
                                          +:+ pretty (AlertingRule.id rule) +:+ ":")]) w in
  let body := λ r, Storage.tryRule JSON_parse new_RegExp_i r log in
  Storage.tryRule JSON_parse new_RegExp_i rule log w = (Ok tt, logged)
  ∧ for_of (rule :: rules) body w = for_of rules body logged.
Proof.
  intros Hparse logged body.
  assert (Storage.tryRule JSON_parse new_RegExp_i rule log w = (Ok tt, logged)) as Ht.
  { unfold Storage.tryRule, try_catch. rewrite evaluateRule_cases. by rewrite Hparse. }
  split; [done|]. simpl. unfold mbind, M_bind. subst body. cbn beta. by rewrite Ht.
Qed.

(** X8.  When the insertion of a matching rule's alert is rejected, the
    failure stays inside that rule's turn: the turn returns, the failure
    and an error naming the rule are logged, nothing is stored, and the
    loop goes on with the next rule. *)
Theorem alert_insert_failure_is_contained rule rules log fs w :
  rule_fires JSON_parse new_RegExp_i log rule = true →
  faults w = true :: fs →
  let failed :=
    set_trace (trace w ++ [DbFailure InsertIntoAlerts;
                           ConsoleError ("Error evaluating rule "
                                         +:+ pretty (AlertingRule.id rule) +:+ ":")])
      (set_faults fs w) in
  let body := λ r, Storage.tryRule JSON_parse new_RegExp_i r log in
  Storage.tryRule JSON_parse new_RegExp_i rule log w = (Ok tt, failed)
  ∧ alerts (db failed) = alerts (db w)
  ∧ for_of (rule :: rules) body w = for_of rules body failed.
Proof.
  intros Hfire Hf failed body.
  assert (Storage.tryRule JSON_parse new_RegExp_i rule log w = (Ok tt, failed)) as Ht.
  { unfold rule_fires in Hfire.
    unfold Storage.tryRule, try_catch. rewrite evaluateRule_cases.
    destruct (JSON_parse (AlertingRule.condition rule)) as [conditions|]; [|done].
    rewrite Hfire.
    unfold Storage.createAlert, Storage.insert_alert, mbind, M_bind, db_statement.
    rewrite Hf. simpl. subst failed.
    unfold console_error, emit, modify. simpl. by rewrite <- app_assoc. }
  split; [done|]. split; [done|].
  simpl. unfold mbind, M_bind. subst body. cbn beta. by rewrite Ht.
Qed.

End RuleLoop.

(** X6, witness: a broken rule, a matching rule, a disabled rule and a
    second matching rule. *)
Lemma rules_fire_independently_witness :
  let log := Sample.stored Sample.login_log in
  let w := Sample.world [Sample2.broken_rule; Sample.empty_rule;
                         Sample2.disabled_rule; Sample2.second_rule] [] in
  let w' := (Storage.evaluateRulesForLog Sample.JSON_parse Sample.new_RegExp_i log w).2 in
  faults w = []
  ∧ ∃ evs,
      trace w' = trace w ++ DbSelectRules :: evs
      ∧ alert_request <$> inserted_alerts evs
        = [Storage.ruleAlert Sample.empty_rule log;
           Storage.ruleAlert Sample2.second_rule log].
Proof.
  intros log w w'. split; [reflexivity|].
  exact (proj2 (rules_fire_independently Sample.JSON_parse Sample.new_RegExp_i
                  log w eq_refl)).
Defined.

(** X7, witness: the broken rule. *)
Lemma unparseable_rule_is_skipped_witness :
  let log := Sample.stored Sample.login_log in
  let w := Sample.world [Sample2.broken_rule] [] in
  Sample.JSON_parse (AlertingRule.condition Sample2.broken_rule) = None
  ∧ Storage.tryRule Sample.JSON_parse Sample.new_RegExp_i Sample2.broken_rule log w
    = (Ok tt, set_trace [ConsoleError "Error evaluating rule 10:"] w).
Proof.
  intros log w. split; [reflexivity|].
  exact (proj1 (unparseable_rule_is_skipped Sample.JSON_parse Sample.new_RegExp_i
                  Sample2.broken_rule [] log w eq_refl)).
Defined.

(** X8, witness: the insertion for the first of two matching rules is
    rejected, and the second rule still gets its alert. *)
Lemma alert_insert_failure_is_contained_witness :
  let log := Sample.stored Sample.login_log in
  let w := Sample.world [Sample.empty_rule; Sample2.second_rule] [true] in
  let body := λ r, Storage.tryRule Sample.JSON_parse Sample.new_RegExp_i r log in
  rule_fires Sample.JSON_parse Sample.new_RegExp_i log Sample.empty_rule = true
  ∧ faults w = [true]
  ∧ inserted_alerts (trace (for_of [Sample.empty_rule; Sample2.second_rule] body w).2)
    = [Storage.alert_row (Storage.ruleAlert Sample2.second_rule log) 100 5].
Proof.
  intros log w body. split; [reflexivity|]. split; [reflexivity|].
  destruct (alert_insert_failure_is_contained Sample.JSON_parse Sample.new_RegExp_i
              Sample.empty_rule [Sample2.second_rule] log [] w eq_refl eq_refl)
    as (_ & _ & Hloop).
  subst body. cbv beta zeta in Hloop. rewrite Hloop. reflexivity.
Defined.

(** ** More of the heuristic detection *)

Lemma scan_none ps log t d :
  forallb (λ p, negb (Storage.fires p.1 log)) ps = true →
  Storage.scan ps log t d = (t, d).
Proof.
  induction ps as [|[p s] ps IH]; simpl; [done|].
  intros [Hp Hps]%andb_true_iff. apply negb_true_iff in Hp. rewrite Hp. by apply IH.
Qed.

Lemma scan_severity ps log t d :
  (Storage.scan ps log t d).2 = d
  ∨ (Storage.scan ps log t d).2 = "critical"
  ∨ (Storage.scan ps log t d).2 = "high".
Proof.
  induction ps as [|[p s] ps IH]; simpl; [by left|].
  destruct (Storage.fires p log); [|done]. simpl.
  destruct (String.eqb_spec s "critical") as [->|_]; simpl; [by right; left|].
  destruct (String.eqb_spec s "high") as [->|_]; simpl; [|by left].
  destruct (negb _); [by right; right|by left].
Qed.

Lemma scan_heuristic_severity log :
  heuristic_severity (Storage.scan Storage.patterns log false "info").2 = true.
Proof.
  by destruct (scan_severity Storage.patterns log false "info") as [-> | [-> | ->]].
Qed.

(** The scorer wrapper returns, and touches nothing but the trace, to
    which it adds no alert. *)
Lemma analyze_effects m c w :
  ∃ a w1 evs,
    analyzeLogForAnomalies m c w = (Ok a, w1)
    ∧ trace w1 = trace w ++ evs
    ∧ inserted_alerts evs = []
    ∧ db w1 = db w ∧ faults w1 = faults w ∧ now w1 = now w ∧ pending w1 = pending w.
Proof.
  unfold analyzeLogForAnomalies, mbind, M_bind, gets, try_catch. cbn beta iota.
  destruct (openai w) as [create|].
  - simpl. destruct (create m c).
    + eexists _, _, [_; _]. split; [done|]. simpl. rewrite <- app_assoc. by split_and!.
    + eexists _, _, [_]. by split_and!.
  - eexists _, w, []. rewrite app_nil_r. by split_and!.
Qed.

(** The last statement of detection stores at most the alert it is
    given. *)
Lemma raise_effects log t sev w :
  ∃ evs,
    trace (Storage.raise log t sev w).2 = trace w ++ evs
    ∧ (inserted_alerts evs = []
       ∨ inserted_alerts evs
         = [Storage.alert_row (Storage.anomalyAlert log sev) (next_id (db w)) (now w)]).
Proof.
  unfold Storage.raise. destruct t.
  - unfold mbind, M_bind. destruct (rejects_next w) eqn:Hrej.
    + unfold Storage.createAlert, Storage.insert_alert, mbind, M_bind.
      rewrite (db_statement_rejects _ _ Hrej). simpl. exists [DbFailure InsertIntoAlerts].
      split; [done|by left].
    + destruct (createAlert_ok (Storage.anomalyAlert log sev) w Hrej) as (w' & -> & Ht).
      simpl. eexists. split; [exact Ht|by right].
  - exists []. rewrite app_nil_r. split; [done|by left].
Qed.

(** X9.  A log that no detector matches and whose level is neither
    [error] nor [critical] goes through detection without any effect:
    no alert, no scorer call, nothing logged. *)
Theorem quiet_log_raises_nothing log w :
  forallb (λ p, negb (Storage.fires p.1 log)) Storage.patterns = true →
  Log.level log ≠ "error" →
  Log.level log ≠ "critical" →
  Storage.detectAnomalies log w = (Ok tt, w).
Proof.
  intros Hnone Herr Hcrit. unfold Storage.detectAnomalies.
  rewrite (scan_none _ _ _ _ Hnone).
  apply String.eqb_neq in Herr, Hcrit. by rewrite Herr, Hcrit.
Qed.

(** Detection is its last statement, run after the scorer wrapper (if
    at all) on an outcome whose severity is one of three. *)
Lemma detectAnomalies_raise log w :
  ∃ w1 evs t sev,
    Storage.detectAnomalies log w = Storage.raise log t sev w1
    ∧ trace w1 = trace w ++ evs
    ∧ inserted_alerts evs = []
    ∧ db w1 = db w ∧ now w1 = now w
    ∧ heuristic_severity sev = true.
Proof.
  pose proof (scan_heuristic_severity log) as Hsev.
  unfold Storage.detectAnomalies.
  destruct (Storage.scan Storage.patterns log false "info") as [t sev]. simpl in Hsev.
  destruct (String.eqb (Log.level log) "error" || String.eqb (Log.level log) "critical").
  - unfold mbind at 1, M_bind at 1. unfold mbind at 1, M_bind at 1.
    destruct (analyze_effects (Log.message log) (Storage.logContext log) w)
      as (a & w1 & evs1 & -> & Ht1 & Hins1 & Hdb & _ & Hnow & _).
    destruct (isAnomalous a && JS.gt (confidence a) Storage.threshold).
    + exists w1, evs1, true, "critical". by split_and!.
    + exists w1, evs1, t, sev. by split_and!.
  - exists w, [], t, sev. rewrite app_nil_r. by split_and!.
Qed.

(** X10.  Detection stores at most one alert for a log, whatever the
    detectors, the level and the scorer say.  That alert is the anomaly
    alert of the log, with status [active], and its severity is
    [critical], [high] or [info], never [medium] or [low]. *)
Theorem at_most_one_anomaly_alert log w :
  ∃ evs,
    trace (Storage.detectAnomalies log w).2 = trace w ++ evs
    ∧ (inserted_alerts evs = []
       ∨ ∃ sev,
           heuristic_severity sev = true
           ∧ inserted_alerts evs
             = [Storage.alert_row (Storage.anomalyAlert log sev)
                  (next_id (db w)) (now w)]).
Proof.
  destruct (detectAnomalies_raise log w)
    as (w1 & evs1 & t & sev & -> & Ht1 & Hins1 & Hdb & Hnow & Hsev).
  destruct (raise_effects log t sev w1) as (evs2 & Ht2 & Hins2).
  exists (evs1 ++ evs2). rewrite Ht2, Ht1, app_assoc, inserted_alerts_app, Hins1.
  split; [done|]. rewrite Hdb, Hnow in Hins2.
  destruct Hins2 as [->| ->]; [by left|right]. by exists sev.
Qed.

(** X11.  A scorer that is not configured, or whose request fails, counts
    as "not anomalous": detection then ends as the detectors alone decide.
    Without a client no call is made; a failed call is logged and not
    raised. *)
Theorem scorer_outage_is_neutral log w :
  (openai w = None
   ∨ ∃ create, openai w = Some create
               ∧ create (Log.message log) (Storage.logContext log) = Rejected) →
  let outcome := Storage.scan Storage.patterns log false "info" in
  let consulted :=
    bool_decide (openai w ≠ None)
    && (String.eqb (Log.level log) "error" || String.eqb (Log.level log) "critical") in
  Storage.detectAnomalies log w
  = Storage.raise log outcome.1 outcome.2
      (if consulted
       then set_trace (trace w ++ [ScorerCall (Log.message log) (Storage.logContext log);
                                   ConsoleError "OpenAI analysis error:"]) w
       else w).
Proof.
  intros H outcome consulted. subst outcome consulted.
  unfold Storage.detectAnomalies.
  destruct (Storage.scan Storage.patterns log false "info") as [t sev].
  destruct (String.eqb (Log.level log) "error" || String.eqb (Log.level log) "critical").
  - unfold analyzeLogForAnomalies, mbind, M_bind, gets, try_catch. cbn beta iota.
    destruct H as [->|(create & -> & Hrej)]; simpl; [done|].
    rewrite Hrej. simpl. by rewrite <- app_assoc.
  - by rewrite andb_false_r.
Qed.

Lemma insert_log_world insertLog w :
  rejects_next w = false →
  let log := Storage.log_row insertLog (next_id (db w)) (now w) in
  Storage.insert_log insertLog w
  = (Ok log,
     set_trace (trace (after_statement w) ++ [DbInsertLog log])
       (set_db (mkDb (log :: logs (db w)) (alerts (db w)) (alertingRules (db w))
                  (S (next_id (db w))))
          (after_statement w))).
Proof.
  intros Hok log. unfold Storage.insert_log, mbind, M_bind.
  rewrite (db_statement_ok _ _ Hok). simpl.
  by rewrite db_after_statement, now_after_statement.
Qed.

(** X12.  A rejected anomaly insertion does not reach the request.  For
    a log that a detector matches and whose level is neither [error] nor
    [critical], the insertion of the anomaly alert is issued inside
    [createLog]; when the database rejects it, [createLog] returns the
    stored log all the same, nothing is stored for the alert, and the
    promise is left waiting for the rejection.  When it is resumed, the
    [catch] handler logs the error, the resumption returns, and the
    promise is settled. *)
Theorem detection_rejection_is_contained insertLog w :
  rejects_next w = false →
  rejects_next (after_statement w) = true →
  let log := Storage.log_row insertLog (next_id (db w)) (now w) in
  (Storage.scan Storage.patterns log false "info").1 = true →
  String.eqb (Log.level log) "error" || String.eqb (Log.level log) "critical" = false →
  ∃ w1,
    Storage.createLog insertLog w = (Ok log, w1)
    ∧ pending w1 = pending w ++ [AwaitsAlert log None]
    ∧ alerts (db w1) = alerts (db w)
    ∧ trace w1 = trace w ++ [DbInsertLog log; DbFailure InsertIntoAlerts]
    ∧ (Storage.resume (length (pending w)) w1).1 = Ok tt
    ∧ pending (Storage.resume (length (pending w)) w1).2 = pending w
    ∧ trace (Storage.resume (length (pending w)) w1).2
      = trace w1 ++ [ConsoleError "Anomaly detection error:"].
Proof.
  intros Hok Hrej log Hfire Hlevel.
  unfold Storage.createLog, mbind, M_bind.
  rewrite (insert_log_world insertLog w Hok). fold log.
  set (w0 := set_trace _ _).
  assert (rejects_next w0 = true) as Hrej0 by exact Hrej.
  assert (pending w0 = pending w) as Hp0.
  { subst w0. simpl. unfold after_statement. by destruct (faults w). }
  assert (alerts (db w0) = alerts (db w)) as Ha0 by done.
  assert (trace w0 = trace w ++ [DbInsertLog log]) as Ht0.
  { subst w0. simpl. by rewrite trace_after_statement. }
  unfold Storage.startDetection, Storage.detectAnomalies_call, mbind, M_bind.
  destruct (Storage.scan Storage.patterns log false "info") as [t sev].
  simpl in Hfire. subst t. rewrite Hlevel.
  unfold Storage.raise_call, Storage.createAlert, Storage.insert_alert, mbind, M_bind.
  rewrite (db_statement_rejects _ _ Hrej0).
  eexists. split; [reflexivity|]. cbn [pending trace db set_pending set_trace set_faults].
  rewrite Hp0, Ht0, Ha0.
  split_and!; try done.
  - by rewrite <- app_assoc.
  - apply resume_returns.
  - unfold Storage.resume. cbn [pending set_pending option_list option_rect].
    rewrite list_lookup_middle by done. simpl.
    by rewrite delete_middle, app_nil_r.
  - unfold Storage.resume. cbn [pending set_pending option_list option_rect].
    rewrite list_lookup_middle by done. by simpl.
Qed.

(** X9, witness: the start of a service, at level [info]. *)
Lemma quiet_log_raises_nothing_witness :
  let log := Sample.stored Sample2.quiet_log in
  let w := Sample.world [] [] in
  forallb (λ p, negb (Storage.fires p.1 log)) Storage.patterns = true
  ∧ Log.level log ≠ "error"
  ∧ Log.level log ≠ "critical"
  ∧ Storage.detectAnomalies log w = (Ok tt, w).
Proof.
  intros log w.
  assert (forallb (λ p, negb (Storage.fires p.1 log)) Storage.patterns = true) as H1
    by (vm_compute; reflexivity).
  assert (Log.level log ≠ "error") as H2 by discriminate.
  assert (Log.level log ≠ "critical") as H3 by discriminate.
  split; [exact H1|]. split; [exact H2|]. split; [exact H3|].
  exact (quiet_log_raises_nothing log w H1 H2 H3).
Defined.

(** X11, witness: a [critical] log and a scorer whose request fails. *)
Lemma scorer_outage_is_neutral_witness :
  let log := Sample.stored Sample.outage_log in
  let w := Sample.scored_world Rejected in
  (∃ create, openai w = Some create
             ∧ create (Log.message log) (Storage.logContext log) = Rejected)
  ∧ Storage.detectAnomalies log w
    = (Ok tt,
       set_trace [ScorerCall (Log.message log) (Storage.logContext log);
                  ConsoleError "OpenAI analysis error:"] w).
Proof.
  intros log w.
  assert (∃ create, openai w = Some create
                    ∧ create (Log.message log) (Storage.logContext log) = Rejected) as H
    by (eexists; split; reflexivity).
  split; [exact H|].
  rewrite (scorer_outage_is_neutral log w (or_intror H)). vm_compute. reflexivity.
Defined.

(** X12, witness: a failed login at level [warning], and a database
    that rejects the second statement. *)
Lemma detection_rejection_is_contained_witness :
  let w := Sample.world [] [false; true] in
  let log := Sample.stored Sample.login_log in
  rejects_next w = false
  ∧ rejects_next (after_statement w) = true
  ∧ ∃ w1,
      Storage.createLog Sample.login_log w = (Ok log, w1)
      ∧ pending w1 = [AwaitsAlert log None]
      ∧ trace (Storage.resume 0 w1).2
        = [DbInsertLog log; DbFailure InsertIntoAlerts;
           ConsoleError "Anomaly detection error:"].
Proof.
  intros w log. split; [reflexivity|]. split; [reflexivity|].
  destruct (detection_rejection_is_contained Sample.login_log w eq_refl eq_refl
              eq_refl eq_refl) as (w1 & Hc & Hp & _ & Ht & _ & _ & Hr).
  exists w1. split; [exact Hc|]. split; [exact Hp|].
  simpl in Hr. rewrite Hr, Ht. reflexivity.
Defined.

(** ** More of the scorer wrapper *)

Lemma SFcompare_defined x y :
  SFcompare x x ≠ None → SFcompare y y ≠ None → ∃ c, SFcompare x y = Some c.
Proof. destruct x, y; simpl; try congruence; eauto. Qed.

Lemma float_lt_le x y : PrimFloat.ltb x y = true → PrimFloat.leb x y = true.
Proof.
  rewrite ltb_spec, leb_spec. unfold SFltb, SFleb.
  by destruct (SFcompare _ _) as [[]|].
Qed.

Lemma float_not_lt_le x y :
  PrimFloat.is_nan x = false → PrimFloat.is_nan y = false →
  PrimFloat.ltb x y = false → PrimFloat.leb y x = true.
Proof.
  unfold PrimFloat.is_nan. intros Hx%negb_false_iff Hy%negb_false_iff.
  rewrite FloatAxioms.eqb_spec in Hx, Hy. rewrite ltb_spec, leb_spec.
  unfold SFeqb, SFltb, SFleb in *.
  destruct (SFcompare_defined (Prim2SF x) (Prim2SF y)) as [c Hc].
  { by destruct (SFcompare (Prim2SF x) (Prim2SF x)). }
  { by destruct (SFcompare (Prim2SF y) (Prim2SF y)). }
  rewrite Hc, (SFcompare_antisym _ _ _ Hc). by destruct c.
Qed.

(** Clamping to the unit interval: a number comes out between 0 and 1,
    and NaN comes out as NaN. *)
Lemma clamp_unit_interval c :
  let clamped := JS.Math_max 0 (JS.Math_min 1 c) in
  if PrimFloat.is_nan c then PrimFloat.is_nan clamped = true
  else in_unit_interval clamped = true.
Proof.
  intros clamped. subst clamped. destruct (PrimFloat.is_nan c) eqn:Hnan.
  { unfold JS.Math_min. rewrite Hnan, orb_true_r. reflexivity. }
  assert (PrimFloat.is_nan (JS.Math_min 1 c) = false
          ∧ PrimFloat.leb (JS.Math_min 1 c) 1 = true) as [Hm Hle].
  { unfold JS.Math_min. rewrite Hnan.
    change (PrimFloat.is_nan 1 || false) with false. cbv iota.
    destruct (PrimFloat.ltb 1 c) eqn:H1; [done|].
    destruct (PrimFloat.ltb c 1) eqn:H2; [by split; [|apply float_lt_le]|].
    change (PrimFloat.get_sign 1) with false. cbv iota.
    split; [done|]. by apply float_not_lt_le. }
  generalize dependent (JS.Math_min 1 c). intros m Hm Hle.
  unfold JS.Math_max, in_unit_interval. rewrite Hm.
  change (PrimFloat.is_nan 0 || false) with false. cbv iota.
  destruct (PrimFloat.ltb 0 m) eqn:H1.
  { by rewrite (float_lt_le _ _ H1), Hle. }
  destruct (PrimFloat.ltb m 0) eqn:H2; [done|].
  change (PrimFloat.get_sign 0) with false. done.
Qed.

(** X13.  The confidence that the scorer wrapper hands on is never
    outside the unit interval: whatever the remote service answers, it is
    either NaN or a number between 0 and 1; and a NaN confidence falls
    short of the escalation test. *)
Theorem analysis_confidence_is_clamped m c w a :
  (analyzeLogForAnomalies m c w).1 = Ok a →
  (PrimFloat.is_nan (confidence a) = true ∨ in_unit_interval (confidence a) = true)
  ∧ (PrimFloat.is_nan (confidence a) = true → JS.gt (confidence a) Storage.threshold = false).
Proof.
  intros Ha. split.
  - revert Ha.
    unfold analyzeLogForAnomalies, mbind, M_bind, gets, try_catch. cbn beta iota.
    destruct (openai w) as [create|]; simpl.
    + destruct (create m c) as [|anomalous conf text]; simpl.
      * intros [= <-]. by right.
      * intros [= <-]. simpl.
        pose proof (clamp_unit_interval conf) as H. simpl in H.
        destruct (PrimFloat.is_nan conf); [by left|by right].
    + intros [= <-]. by right.
  - unfold PrimFloat.is_nan, JS.gt. intros Hn%negb_true_iff.
    rewrite FloatAxioms.eqb_spec in Hn. rewrite ltb_spec. unfold SFeqb, SFltb in *.
    destruct (Prim2SF (confidence a)) as [s|s| |s mx ex]; simpl in *; try done.
    + by destruct s.
    + by rewrite Z.compare_refl, Pos.compare_cont_refl in Hn; destruct s.
Qed.

(** X13, witness: a service that answers with confidence 7.5. *)
Lemma analysis_confidence_is_clamped_witness :
  let w := Sample.scored_world (Parsed true 0x1.ep+2 None) in
  let a := mkAnalysis true 1 "No analysis available" in
  (analyzeLogForAnomalies "m" "c" w).1 = Ok a
  ∧ in_unit_interval (confidence a) = true.
Proof.
  intros w a. split; [reflexivity|].
  destruct (analysis_confidence_is_clamped "m" "c" w a eq_refl) as [[H|H] _].
  - discriminate H.
  - exact H.
Defined.

(** ** More of the alert store *)

Lemma update_alert_missing id f w :
  alerts (db w) !! id = None →
  rejects_next w = false →
  Storage.update_alert id f w = (Ok None, after_statement w).
Proof.
  intros Hnone Hok. unfold Storage.update_alert, mbind, M_bind.
  rewrite (db_statement_ok _ _ Hok). unfold gets. cbn beta iota.
  by rewrite db_after_statement, Hnone.
Qed.

(** X14.  Acknowledging or resolving an alert that does not exist
    returns [undefined] and changes nothing: no row is created or
    altered, no update is recorded and nothing is written to the
    trace. *)
Theorem status_change_of_missing_alert id w :
  alerts (db w) !! id = None →
  rejects_next w = false →
  Storage.acknowledgeAlert id w = (Ok None, after_statement w)
  ∧ Storage.resolveAlert id w = (Ok None, after_statement w)
  ∧ db (after_statement w) = db w
  ∧ trace (after_statement w) = trace w.
Proof.
  intros Hnone Hok. split_and!.
  - rewrite acknowledgeAlert_unfold. by apply update_alert_missing.
  - rewrite resolveAlert_unfold. by apply update_alert_missing.
  - apply db_after_statement.
  - apply trace_after_statement.
Qed.

(** X15.  A status change touches one row and two of its columns.
    Every other alert is as it was; the target keeps its key, time,
    severity, title, description, source and address; acknowledging sets
    the acknowledgement time and keeps the resolution time, resolving
    sets the resolution time and keeps the acknowledgement time; logs
    and rules are untouched. *)
Theorem status_change_is_local id a w :
  alerts (db w) !! id = Some a →
  rejects_next w = false →
  let acked := db (Storage.acknowledgeAlert id w).2 in
  let resolved := db (Storage.resolveAlert id w).2 in
  alerts acked
  = <[id := Storage.set_status "acknowledged" (Some (now w)) (Alert.resolvedAt a) a]>
      (alerts (db w))
  ∧ alerts resolved
    = <[id := Storage.set_status "resolved" (Alert.acknowledgedAt a) (Some (now w)) a]>
        (alerts (db w))
  ∧ (∀ other, other ≠ id →
       alerts acked !! other = alerts (db w) !! other
       ∧ alerts resolved !! other = alerts (db w) !! other)
  ∧ logs acked = logs (db w) ∧ alertingRules acked = alertingRules (db w)
  ∧ logs resolved = logs (db w) ∧ alertingRules resolved = alertingRules (db w)
  ∧ next_id acked = next_id (db w) ∧ next_id resolved = next_id (db w).
Proof.
  intros Ha Hok acked resolved. subst acked resolved.
  rewrite acknowledgeAlert_unfold, resolveAlert_unfold.
  unfold Storage.update_alert, mbind, M_bind.
  rewrite (db_statement_ok _ _ Hok). unfold gets. cbn beta iota.
  rewrite db_after_statement, Ha. simpl.
  split_and!; try done.
  intros other Hne. by rewrite !lookup_insert_ne.
Qed.

(** X16.  What [createAlert] stores, [getAlert] returns: after an
    insertion that is not rejected, a lookup of the new alert's key that
    is not rejected yields the alert that [createAlert] returned, and
    the alerts stored before are still there, provided their keys were
    handed out earlier. *)
Theorem createAlert_getAlert ins w :
  rejects_next w = false →
  rejects_next (after_statement w) = false →
  ∃ a w1,
    Storage.createAlert ins w = (Ok a, w1)
    ∧ Alert.id a = next_id (db w)
    ∧ (Storage.getAlert (Alert.id a) w1).1 = Ok (Some a)
    ∧ ∀ other, (other < next_id (db w))%nat →
        alerts (db w1) !! other = alerts (db w) !! other.
Proof.
  intros Hok Hok2.
  unfold Storage.createAlert, Storage.insert_alert, mbind, M_bind.
  rewrite (db_statement_ok _ _ Hok). simpl.
  eexists _, _. split; [done|]. split; [by rewrite db_after_statement|].
  split.
  - unfold Storage.getAlert, mbind, M_bind.
    rewrite db_statement_ok.
    + simpl. rewrite !db_after_statement. simpl.
      by rewrite lookup_insert_eq.
    + revert Hok2. unfold rejects_next, after_statement. simpl.
      by destruct (faults w) as [|? [|[] ?]].
  - intros other Hlt. simpl. rewrite db_after_statement.
    rewrite lookup_insert_ne; [done|lia].
Qed.

(** X14, witness: a key that was never handed out. *)
Lemma status_change_of_missing_alert_witness :
  let w := Sample.world [] [] in
  alerts (db w) !! 42 = None
  ∧ rejects_next w = false
  ∧ Storage.acknowledgeAlert 42 w = (Ok None, w)
  ∧ Storage.resolveAlert 42 w = (Ok None, w).
Proof.
  intros w. split; [reflexivity|]. split; [reflexivity|].
  destruct (status_change_of_missing_alert 42 w eq_refl eq_refl)
    as (H1 & H2 & _).
  split; [exact H1|exact H2].
Defined.

(** X15, witness: two stored alerts, the second one resolved. *)
Lemma status_change_is_local_witness :
  let log := Sample.stored Sample.login_log in
  let first := Storage.alert_row (Storage.anomalyAlert log "high") 100 5 in
  let second := Storage.alert_row (Storage.ruleAlert Sample.empty_rule log) 101 5 in
  let w := (Storage.createAlert (Storage.ruleAlert Sample.empty_rule log)
              (Storage.createAlert (Storage.anomalyAlert log "high")
                 (Sample.world [] [])).2).2 in
  alerts (db w) !! 101 = Some second
  ∧ rejects_next w = false
  ∧ alerts (db (Storage.resolveAlert 101 w).2) !! 100 = Some first
  ∧ Alert.title <$> alerts (db (Storage.resolveAlert 101 w).2) !! 101
    = Some "Catch all".
Proof.
  intros log first second w.
  assert (alerts (db w) !! 101 = Some second) as Ha by reflexivity.
  split; [exact Ha|]. split; [reflexivity|].
  destruct (status_change_is_local 101 second w Ha eq_refl)
    as (_ & Hres & Hother & _).
  split.
  - rewrite (proj2 (Hother 100 ltac:(discriminate))). reflexivity.
  - rewrite Hres, lookup_insert_eq. reflexivity.
Defined.

(** X16, witness: the first alert of a store. *)
Lemma createAlert_getAlert_witness :
  let log := Sample.stored Sample.login_log in
  let w := Sample.world [] [] in
  let a := Storage.alert_row (Storage.anomalyAlert log "high") 100 5 in
  rejects_next w = false
  ∧ rejects_next (after_statement w) = false
  ∧ (Storage.getAlert 100 (Storage.createAlert (Storage.anomalyAlert log "high") w).2).1
    = Ok (Some a).
Proof.
  intros log w a. split; [reflexivity|]. split; [reflexivity|].
  destruct (createAlert_getAlert (Storage.anomalyAlert log "high") w eq_refl eq_refl)
    as (a' & w1 & Hc & Hid & Hget & _).
  rewrite Hc. simpl.
  assert (a' = a) as Ha by (by injection Hc as <- _).
  rewrite <- Ha. rewrite Ha in Hget at 1. exact Hget.
Defined.

(** ** The subscriber registry, continued *)

Lemma broadcast_with_server type data w :
  wsServer (logStreamManager w) = true →
  Stream.broadcast type data w
  = (Ok tt,
     Stream.set_subscribers
       (Stream.deliver (WebSocket.mkMessage type data (now w))
          <$> subscribers (logStreamManager w))
       (set_trace (trace w ++ [Broadcast (WebSocket.mkMessage type data (now w))]) w)).
Proof.
  intros H. unfold Stream.broadcast, mbind, M_bind, gets. cbn beta iota.
  by rewrite H.
Qed.

(** X17.  With the server initialised, any sequence of broadcasts
    returns normally and reaches a subscriber whose connection is [OPEN]
    complete and in the order of the calls, after what was sent to it
    before; a subscriber whose connection is not [OPEN] is left exactly
    as it was. *)
Theorem broadcasts_arrive_in_order (calls : list (string * WebSocket.payload)) w :
  wsServer (logStreamManager w) = true →
  let run := for_of calls (λ c, Stream.broadcast c.1 c.2) w in
  run.1 = Ok tt
  ∧ ∀ subscriberId s,
      subscribers (logStreamManager w) !! subscriberId = Some s →
      subscribers (logStreamManager run.2) !! subscriberId
      = Some (if decide (WebSocket.readyState (ws s) = WebSocket.OPEN)
              then mkLogSubscriber
                     (WebSocket.mk WebSocket.OPEN
                        (WebSocket.sent (ws s)
                         ++ map (λ c, WebSocket.mkMessage c.1 c.2 (now w)) calls))
                     (id s)
              else s).
Proof.
  revert w. induction calls as [|[type data] calls IH]; intros w Hserver; simpl.
  - split; [done|]. intros k [[r sent] i] Hs. rewrite Hs. simpl.
    case_decide as Hr; [|done]. simpl in Hr. subst r. by rewrite app_nil_r.
  - unfold mbind, M_bind. rewrite (broadcast_with_server _ _ _ Hserver).
    cbn beta iota.
    set (w1 := Stream.set_subscribers _ _).
    destruct (IH w1 Hserver) as [Hret Hsubs]. split; [exact Hret|].
    intros k [[r sent] i] Hs.
    assert (subscribers (logStreamManager w1) !! k
            = Some (Stream.deliver (WebSocket.mkMessage type data (now w))
                      (mkLogSubscriber (WebSocket.mk r sent) i))) as H1.
    { subst w1. simpl. by rewrite lookup_fmap, Hs. }
    rewrite (Hsubs _ _ H1). unfold Stream.deliver. simpl.
    destruct (decide (r = WebSocket.OPEN)) as [->|Hr]; simpl.
    + by rewrite <- app_assoc.
    + by rewrite decide_False.
Qed.

(** X18.  The registry is keyed by the identifier drawn at connection
    time.  A connection leaves every other identifier's entry alone; when
    two connections draw the same identifier, the later one replaces the
    earlier in the registry, and the close of either removes the entry,
    so that the other is no longer a subscriber although it never
    closed. *)
Theorem subscriber_identifier_is_the_key first second subscriberId w :
  let w1 := (Stream.on_connection first subscriberId w).2 in
  let w2 := (Stream.on_connection second subscriberId w1).2 in
  let w3 := (Stream.on_close subscriberId w2).2 in
  subscribers (logStreamManager w2) !! subscriberId
  = Some (mkLogSubscriber second subscriberId)
  ∧ subscribers (logStreamManager w3) !! subscriberId = None
  ∧ ∀ other, other ≠ subscriberId →
      subscribers (logStreamManager w2) !! other
      = subscribers (logStreamManager w) !! other
      ∧ subscribers (logStreamManager w3) !! other
        = subscribers (logStreamManager w) !! other.
Proof.
  simpl. split_and!.
  - by rewrite lookup_insert_eq.
  - by rewrite lookup_delete_eq.
  - intros other Hne. split.
    + by rewrite !lookup_insert_ne.
    + by rewrite lookup_delete_ne, !lookup_insert_ne.
Qed.

(** X17, witness: a log and an alert broadcast to the sample registry. *)
Lemma broadcasts_arrive_in_order_witness :
  let w := Sample.world [] [] in
  let log := Sample.stored Sample.login_log in
  let alert := Storage.alert_row (Storage.anomalyAlert log "high") 101 5 in
  let w' := (for_of [("log_created", WebSocket.OfLog log);
                     ("alert_created", WebSocket.OfAlert alert)]
               (λ c, Stream.broadcast c.1 c.2) w).2 in
  wsServer (logStreamManager w) = true
  ∧ subscribers (logStreamManager w') !! "a"
    = Some (mkLogSubscriber
              (WebSocket.mk WebSocket.OPEN
                 [WebSocket.mkMessage "log_created" (WebSocket.OfLog log) 5;
                  WebSocket.mkMessage "alert_created" (WebSocket.OfAlert alert) 5])
              "a").
Proof.
  intros w log alert w'. split; [reflexivity|].
  exact (proj2 (broadcasts_arrive_in_order
                  [("log_created", WebSocket.OfLog log);
                   ("alert_created", WebSocket.OfAlert alert)] w eq_refl)
           "a" (mkLogSubscriber Sample.open_socket "a") eq_refl).
Defined.

(** ** What the pipeline does to the database *)

#[global] Instance only_adds_alerts_refl : Reflexive only_adds_alerts.
Proof. intros w. by split_and!. Qed.

#[global] Instance only_adds_alerts_trans : Transitive only_adds_alerts.
Proof.
  intros w1 w2 w3 (Hl & Hr & Hn & Ha) (Hl' & Hr' & Hn' & Ha').
  split_and!; [congruence|congruence|lia|].
  intros id Hid. rewrite Ha' by lia. by apply Ha.
Qed.

Lemma adds_emit e : preserves only_adds_alerts (emit e).
Proof. intros w. by split_and!. Qed.

Lemma adds_db_statement s : preserves only_adds_alerts (db_statement s).
Proof.
  intros w. unfold db_statement. by destruct (faults w) as [|[] fs]; split_and!.
Qed.

Lemma adds_createAlert ins : preserves only_adds_alerts (Storage.createAlert ins).
Proof.
  intros w. unfold Storage.createAlert, Storage.insert_alert, mbind, M_bind.
  pose proof (adds_db_statement InsertIntoAlerts w) as (Hl & Hr & Hn & Ha).
  destruct (db_statement InsertIntoAlerts w) as [[[]|e] w1]; simpl in *;
    [|by split_and!].
  split_and!; simpl; [done|done|lia|].
  intros id Hid. rewrite lookup_insert_ne by lia. by apply Ha.
Qed.

Lemma adds_broadcast type data : preserves only_adds_alerts (Stream.broadcast type data).
Proof.
  intros w. unfold Stream.broadcast, mbind, M_bind, gets. cbn beta iota.
  by destruct (wsServer (logStreamManager w)); split_and!.
Qed.

Lemma adds_analyze m c : preserves only_adds_alerts (analyzeLogForAnomalies m c).
Proof. unfold analyzeLogForAnomalies, console_error. frame; apply adds_emit. Qed.

Lemma adds_detectAnomalies log :
  preserves only_adds_alerts (Storage.detectAnomalies log).
Proof.
  unfold Storage.detectAnomalies, Storage.raise.
  destruct (Storage.scan _ _ _ _) as [t sev].
  frame; try apply adds_createAlert. all: apply adds_analyze.
Qed.

Lemma adds_evaluateRulesForLog parse re log :
  preserves only_adds_alerts (Storage.evaluateRulesForLog parse re log).
Proof.
  unfold Storage.evaluateRulesForLog, Storage.getAlertingRules, Storage.tryRule,
    Storage.evaluateRule, console_error.
  frame; try apply adds_db_statement; try apply adds_createAlert; apply adds_emit.
Qed.

Lemma adds_set_pending f :
  preserves only_adds_alerts (modify (λ w, set_pending (f w) w)).
Proof. intros w. by split_and!. Qed.

Lemma adds_raise_call log t sev :
  preserves only_adds_alerts (Storage.raise_call log t sev).
Proof.
  intros w. unfold Storage.raise_call. destruct t; [|reflexivity].
  pose proof (adds_createAlert (Storage.anomalyAlert log sev) w) as H.
  by destruct (Storage.createAlert _ w) as [[a|e] w1].
Qed.

Lemma adds_detectAnomalies_call log :
  preserves only_adds_alerts (Storage.detectAnomalies_call log).
Proof.
  unfold Storage.detectAnomalies_call, analyzeLogForAnomalies_call.
  destruct (Storage.scan _ _ _ _) as [t sev].
  frame; try apply adds_raise_call. apply adds_emit.
Qed.

Lemma adds_detectAnomalies_resume d :
  preserves only_adds_alerts (Storage.detectAnomalies_resume d).
Proof.
  unfold Storage.detectAnomalies_resume, analyzeLogForAnomalies_resume, console_error.
  frame; try apply adds_raise_call; apply adds_emit.
Qed.

Lemma adds_startDetection log : preserves only_adds_alerts (Storage.startDetection log).
Proof.
  unfold Storage.startDetection. frame.
  - apply adds_detectAnomalies_call.
  - apply (adds_set_pending (λ w, pending w ++ option_list a)).
Qed.

Lemma adds_resume i : preserves only_adds_alerts (Storage.resume i).
Proof.
  intros w. unfold Storage.resume. destruct (pending w !! i) as [d|]; [|reflexivity].
  assert (preserves only_adds_alerts
            (next ← Storage.detectAnomalies_resume d;
             modify (λ w, set_pending (match next with
                                       | Some d' => <[i := d']> (pending w)
                                       | None => delete i (pending w)
                                       end) w))) as H; [|apply H].
  frame_step; [apply adds_detectAnomalies_resume|].
  apply (adds_set_pending (λ w, match a with
                                | Some d' => <[i := d']> (pending w)
                                | None => delete i (pending w)
                                end)).
Qed.

(** X19.  Detection, in whatever order its promises are resumed, and
    rule evaluation only ever add alerts: whatever the log, the rules,
    the scorer's reply and the database's failures, the stored logs and
    the rules are as before, no key is taken back, and every alert
    stored under a key handed out before is untouched, its status
    included. *)
Theorem pipeline_only_adds_alerts parse re log :
  preserves only_adds_alerts (Storage.detectAnomalies log)
  ∧ preserves only_adds_alerts (Storage.startDetection log)
  ∧ (∀ i, preserves only_adds_alerts (Storage.resume i))
  ∧ preserves only_adds_alerts (Storage.evaluateRulesForLog parse re log).
Proof.
  split_and!; [apply adds_detectAnomalies|apply adds_startDetection|
               apply adds_resume|apply adds_evaluateRulesForLog].
Qed.

(** ** The routes for logs and alerts *)

Lemma createLog_rejects insertLog w :
  rejects_next w = true →
  Storage.createLog insertLog w
  = (Throw DbError,
     set_trace (trace w ++ [DbFailure InsertIntoLogs]) (set_faults (tail (faults w)) w)).
Proof.
  intros Hrej. unfold Storage.createLog, Storage.insert_log, mbind, M_bind.
  by rewrite (db_statement_rejects _ _ Hrej).
Qed.

Lemma adds_arrive ready : preserves only_adds_alerts (EventLoop.arrive ready).
Proof. unfold EventLoop.arrive. frame. apply adds_resume. Qed.

Lemma adds_await {A} ready (p : M A) :
  preserves only_adds_alerts p → preserves only_adds_alerts (EventLoop.await ready p).
Proof.
  intros Hp w. unfold EventLoop.await. specialize (Hp w).
  destruct (p w) as [o w1]. simpl in *. etrans; [exact Hp|apply adds_arrive].
Qed.

Lemma adds_loop_evaluateRulesForLog parse re schedule log :
  preserves only_adds_alerts (EventLoop.evaluateRulesForLog parse re schedule log).
Proof.
  unfold EventLoop.evaluateRulesForLog, EventLoop.tryRule, EventLoop.evaluateRule,
    Storage.getAlertingRules, console_error.
  frame; try apply adds_emit.
  - apply adds_await. frame; [apply adds_db_statement|apply adds_emit].
  - apply adds_await, adds_createAlert.
Qed.

Lemma existsb_is_answered evs :
  existsb is_landmark evs = false → existsb is_answered evs = false.
Proof.
  induction evs as [|e evs IH]; [done|]. simpl.
  intros [He Hevs]%orb_false_elim. rewrite (IH Hevs).
  by destruct e as [| | | |[]| | | |].
Qed.

Section LogRoute.

Variable JSON_parse : string → option (list RuleCondition.t).
Variable new_RegExp_i : string → option (string → bool).

(** X20.  A log request whose body the schema refuses, or whose
    insertion the database rejects, is answered 400 and leaves nothing
    behind: no log or alert is stored, no detection is started, nothing
    is broadcast and the rules are not consulted. *)
Theorem refused_log_leaves_nothing body w :
  body = Invalid ∨ rejects_next w = true →
  let w' := (Routes.post_api_logs JSON_parse new_RegExp_i body w).2 in
  db w' = db w
  ∧ pending w' = pending w
  ∧ logStreamManager w' = logStreamManager w
  ∧ trace w'
    = trace w
      ++ match body with Valid _ => [DbFailure InsertIntoLogs] | Invalid => [] end
      ++ [Response 400 (JsonError "Invalid log data")].
Proof.
  intros H w'. subst w'.
  unfold Routes.post_api_logs, try_catch, Routes.schema_parse, mbind, M_bind.
  destruct body as [insertLog|]; [|by split_and!].
  destruct H as [|Hrej]; [done|]. simpl.
  rewrite (createLog_rejects _ _ Hrej). simpl.
  split_and!; try done. by rewrite <- app_assoc.
Qed.

(** X21.  Once the body is valid and the insertion succeeds, the log is
    stored whatever follows, and the answer depends on the rule query
    alone, in every run of the request, whatever arrives while it waits:
    201 with the stored log when the query is answered, whichever rules
    then match and whichever insertions of detection or of the rules
    fail, and 400 when the query is rejected. *)
Theorem log_request_status schedule insertLog w :
  rejects_next w = false →
  let log := Storage.log_row insertLog (next_id (db w)) (now w) in
  ∃ w' evs,
    EventLoop.post_api_logs JSON_parse new_RegExp_i schedule (Valid insertLog) w
    = (Ok tt, w')
    ∧ logs (db w') = log :: logs (db w)
    ∧ trace w' = trace w ++ DbInsertLog log :: evs
    ∧ existsb is_rule_engine evs = true
    ∧ last evs
      = Some (if existsb is_answered evs
              then Response 201 (JsonLog log)
              else Response 400 (JsonError "Invalid log data")).
Proof.
  intros Hok log.
  destruct (request_shape JSON_parse new_RegExp_i schedule insertLog w Hok)
    as (w' & evs0 & started & evs1 & query & evs2 & Hrun & Ht & Hq & Hb1 & Hb2 & _).
  fold log in Ht.
  exists w', ((evs0 ++ started ++ evs1) ++ query :: evs2
              ++ [if is_answered query
                  then Response 201 (JsonLog log)
                  else Response 400 (JsonError "Invalid log data")]).
  split; [exact Hrun|]. split_and!.
  - (* the log is stored, and nothing of the run takes it away *)
    revert Hrun.
    unfold EventLoop.post_api_logs, EventLoop.createLog, try_catch, Routes.schema_parse,
      Routes.respond, Stream.broadcastLogCreated, mbind, M_bind, mret, M_ret.
    unfold EventLoop.await at 1 2.
    destruct (insert_log_ok insertLog w Hok) as (w1 & -> & _ & _ & _ & Hl1). fold log.
    pose proof (adds_arrive (schedule 0) w1) as (Hl2 & _).
    set (w2 := (EventLoop.arrive (schedule 0) w1).2) in *.
    pose proof (startDetection_returns log w2) as Hr3.
    pose proof (adds_startDetection log w2) as (Hl3 & _).
    destruct (Storage.startDetection log w2) as [o3 w3]. simpl in Hr3, Hl3. subst o3.
    pose proof (adds_arrive (schedule 1) w3) as (Hl4 & _).
    set (w4 := (EventLoop.arrive (schedule 1) w3).2) in *.
    pose proof (adds_broadcast "log_created" (WebSocket.OfLog log) w4) as (Hl5 & _).
    destruct (Stream.broadcast "log_created" (WebSocket.OfLog log) w4) as [[[]|e] w5];
      simpl in Hl5.
    + pose proof (adds_loop_evaluateRulesForLog JSON_parse new_RegExp_i schedule log w5)
        as (Hl6 & _).
      destruct (EventLoop.evaluateRulesForLog _ _ _ log w5) as [[[]|e] w6];
        simpl in Hl6; intros [= <-]; simpl; by rewrite Hl6, Hl5, Hl4, Hl3, Hl2, Hl1.
    + intros [= <-]. simpl. by rewrite Hl5, Hl4, Hl3, Hl2, Hl1.
  - exact Ht.
  - rewrite existsb_app. simpl. by rewrite Hq, orb_true_r.
  - set (response := if is_answered query then _ else _).
    replace ((evs0 ++ started ++ evs1) ++ query :: evs2 ++ [response])
      with (((evs0 ++ started ++ evs1) ++ query :: evs2) ++ [response])
      by (by rewrite <- app_assoc).
    rewrite last_snoc.
    rewrite (existsb_app _ ((evs0 ++ started ++ evs1) ++ query :: evs2)),
      (existsb_app _ (evs0 ++ started ++ evs1)). simpl.
    rewrite (existsb_is_answered _ Hb1), (existsb_is_answered _ Hb2). simpl.
    subst response. by destruct (is_answered query).
Qed.

End LogRoute.

(** X22.  An alert created by hand is stored under a fresh key, with
    status [active] unless the request gives one, then broadcast as
    stored to the subscribers whose connection is [OPEN], and answered
    201 with the stored row. *)
Theorem manual_alert_is_stored_and_broadcast ins w :
  rejects_next w = false →
  wsServer (logStreamManager w) = true →
  let alert := Storage.alert_row ins (next_id (db w)) (now w) in
  let message := WebSocket.mkMessage "alert_created" (WebSocket.OfAlert alert) (now w) in
  let w' := (Routes.post_api_alerts (Valid ins) w).2 in
  Alert.status alert = default "active" (InsertAlert.status ins)
  ∧ alerts (db w') = <[next_id (db w) := alert]> (alerts (db w))
  ∧ subscribers (logStreamManager w')
    = Stream.deliver message <$> subscribers (logStreamManager w)
  ∧ trace w'
    = trace w ++ [DbInsertAlert alert; Broadcast message; Response 201 (JsonAlert alert)].
Proof.
  intros Hok Hserver alert message w'. subst w'.
  unfold Routes.post_api_alerts, try_catch, Routes.schema_parse, Routes.respond,
    Stream.broadcastAlertCreated, Storage.createAlert, Storage.insert_alert,
    mbind, M_bind, mret, M_ret.
  rewrite (db_statement_ok _ _ Hok). simpl.
  rewrite db_after_statement, now_after_statement, trace_after_statement.
  fold alert.
  rewrite broadcast_with_server; simpl.
  - rewrite now_after_statement. split_and!; try done.
    + unfold after_statement. by destruct (faults w).
    + by rewrite <- !app_assoc.
  - unfold after_statement. by destruct (faults w).
Qed.

(** X23.  The answer to a status change is settled by the update
    statement: 500 when the database rejects it, 404 when no alert has
    the key, and otherwise 200 with the row as updated. *)
Theorem status_change_answers id w :
  last (trace (Routes.patch_api_alerts_acknowledge id w).2)
  = Some (if rejects_next w
          then Response 500 (JsonError "Failed to acknowledge alert")
          else match alerts (db w) !! id with
               | None => Response 404 (JsonError "Alert not found")
               | Some a =>
                   Response 200
                     (JsonAlert (Storage.set_status "acknowledged" (Some (now w))
                                   (Alert.resolvedAt a) a))
               end)
  ∧ last (trace (Routes.patch_api_alerts_resolve id w).2)
    = Some (if rejects_next w
            then Response 500 (JsonError "Failed to resolve alert")
            else match alerts (db w) !! id with
                 | None => Response 404 (JsonError "Alert not found")
                 | Some a =>
                     Response 200
                       (JsonAlert (Storage.set_status "resolved" (Alert.acknowledgedAt a)
                                     (Some (now w)) a))
                 end).
Proof.
  unfold Routes.patch_api_alerts_acknowledge, Routes.patch_api_alerts_resolve,
    try_catch, Routes.respond, mbind, M_bind.
  rewrite acknowledgeAlert_unfold, resolveAlert_unfold.
  unfold Storage.update_alert, mbind, M_bind.
  destruct (rejects_next w) eqn:Hrej.
  - rewrite (db_statement_rejects _ _ Hrej). simpl. split; apply last_snoc.
  - rewrite (db_statement_ok _ _ Hrej). unfold gets. cbn beta iota.
    rewrite db_after_statement.
    destruct (alerts (db w) !! id) as [a|]; simpl; split; apply last_snoc.
Qed.

(** X20, witness: the database rejects the insertion of a valid log. *)
Lemma refused_log_leaves_nothing_witness :
  let w := Sample.world [Sample.empty_rule] [true] in
  let w' := (Routes.post_api_logs Sample.JSON_parse Sample.new_RegExp_i
               (Valid Sample.login_log) w).2 in
  (Valid Sample.login_log = Invalid ∨ rejects_next w = true)
  ∧ db w' = db w
  ∧ trace w' = [DbFailure InsertIntoLogs; Response 400 (JsonError "Invalid log data")].
Proof.
  intros w w'.
  assert (Valid Sample.login_log = Invalid ∨ rejects_next w = true) as H
    by (right; reflexivity).
  split; [exact H|].
  destruct (refused_log_leaves_nothing Sample.JSON_parse Sample.new_RegExp_i
              (Valid Sample.login_log) w H) as (Hdb & _ & _ & Ht).
  split; [exact Hdb|exact Ht].
Defined.

(** X21, witness: the first detector and the rule match, the insertion
    of detection succeeds, the rule query is answered and the insertion
    of the rule fails; the request is answered 201 all the same. *)
Lemma log_request_status_witness :
  let w := Sample.world [Sample.empty_rule] [false; false; false; true] in
  let log := Sample.stored Sample.login_log in
  let schedule := λ k, if Nat.eqb k 2 then [0] else [] in
  rejects_next w = false
  ∧ ∃ w' evs,
      EventLoop.post_api_logs Sample.JSON_parse Sample.new_RegExp_i schedule
        (Valid Sample.login_log) w
      = (Ok tt, w')
      ∧ logs (db w') = [log]
      ∧ last evs = Some (Response 201 (JsonLog log)).
Proof.
  intros w log schedule. split; [reflexivity|].
  destruct (log_request_status Sample.JSON_parse Sample.new_RegExp_i schedule
              Sample.login_log w eq_refl) as (w' & evs & Hrun & Hl & Ht & _ & Hlast).
  exists w', evs. split; [exact Hrun|]. split; [exact Hl|].
  rewrite Hlast.
  assert (existsb is_answered evs = true) as ->; [|reflexivity].
  vm_compute in Hrun. injection Hrun as <-.
  vm_compute in Ht. injection Ht as <-. reflexivity.
Defined.

(** X22, witness: an alert posted without a status, with the sample
    registry listening. *)
Lemma manual_alert_is_stored_and_broadcast_witness :
  let w := Sample.world [] [] in
  let ins := InsertAlert.mk "high" "Manual" "Raised by hand" "operator" None None in
  let alert := Storage.alert_row ins 100 5 in
  let w' := (Routes.post_api_alerts (Valid ins) w).2 in
  rejects_next w = false
  ∧ wsServer (logStreamManager w) = true
  ∧ Alert.status alert = "active"
  ∧ alerts (db w') = <[100 := alert]> ∅.
Proof.
  intros w ins alert w'. split; [reflexivity|]. split; [reflexivity|].
  destruct (manual_alert_is_stored_and_broadcast ins w eq_refl eq_refl)
    as (Hs & Ha & _).
  split; [exact Hs|exact Ha].
Defined.

(** ** Authentication *)

Lemma find_username_none (us : list User.t) username :
  List.find (λ u, String.eqb (User.username u) username) us = None →
  username ∉ User.username <$> us.
Proof.
  intros H Hin. apply list_elem_of_fmap in Hin as (u & -> & Hu).
  apply list_elem_of_In in Hu.
  pose proof (find_none _ _ H u Hu) as Hf. simpl in Hf.
  by rewrite String.eqb_refl in Hf.
Qed.

Lemma find_email_none (us : list User.t) email :
  List.find (λ u, String.eqb (User.email u) email) us = None →
  email ∉ User.email <$> us.
Proof.
  intros H Hin. apply list_elem_of_fmap in Hin as (u & -> & Hu).
  apply list_elem_of_In in Hu.
  pose proof (find_none _ _ H u Hu) as Hf. simpl in Hf.
  by rewrite String.eqb_refl in Hf.
Qed.

Lemma no_duplicate_user (us : list User.t) username email :
  List.find (λ u, String.eqb (User.username u) username) us = None →
  List.find (λ u, String.eqb (User.email u) email) us = None →
  existsb (λ u, String.eqb (User.username u) username
                || String.eqb (User.email u) email) us = false.
Proof.
  intros Hu He. apply not_true_is_false. intros (u & Hin & H)%existsb_exists.
  apply orb_true_iff in H as [H|H].
  - pose proof (find_none _ _ Hu u Hin) as Hf. simpl in Hf. congruence.
  - pose proof (find_none _ _ He u Hin) as Hf. simpl in Hf. congruence.
Qed.

Lemma find_username_last (us : list User.t) (user : User.t) :
  List.find (λ u, String.eqb (User.username u) (User.username user)) us = None →
  List.find (λ u, String.eqb (User.username u) (User.username user)) (us ++ [user])
  = Some user.
Proof.
  induction us as [|u us IH]; simpl.
  - by rewrite String.eqb_refl.
  - destruct (String.eqb _ _); [done|exact IH].
Qed.

Ltac auth_case :=
  match goal with
  | |- context [match ?x with _ => _ end] =>
      lazymatch type of x with
      | list bool => is_var x; destruct x as [|[] ?]
      | option User.t => destruct x eqn:?
      end
  end; cbn -[Nat.leb].

Ltac auth_leaf :=
  eexists _, _; split; [reflexivity|]; split; [done|].

Section AuthFacts.

Variable bcrypt_hash : nat → string → string.
Variable bcrypt_compare : string → string → bool.
Variable is_email : string → bool.

(** The paths of [register]. *)
Lemma register_cases b st :
  ∃ r st', Auth.register bcrypt_hash is_email b st = (Ok r, st')
    ∧ (Auth.rejections st = [] → Auth.rejections st' = [])
    ∧ ((Auth.status r ≠ 201
        ∧ Auth.users st' = Auth.users st
        ∧ Auth.fresh st' = Auth.fresh st
        ∧ Auth.session st' = Auth.session st)
       ∨ ∃ username email password,
           Auth.username_field b = Some username
           ∧ Auth.email_field b = Some email
           ∧ Auth.password_field b = Some password
           ∧ (3 ≤ String.length username)%nat
           ∧ (6 ≤ String.length password)%nat
           ∧ is_email email = true
           ∧ List.find (λ u, String.eqb (User.username u) username) (Auth.users st) = None
           ∧ List.find (λ u, String.eqb (User.email u) email) (Auth.users st) = None
           ∧ r = Auth.mkRes 201 (Auth.UserInfo (Auth.fresh st) username email)
           ∧ Auth.users st'
             = Auth.users st
               ++ [User.mk (Auth.fresh st) username email
                     (bcrypt_hash (Auth.draws st) password) (Auth.clock st)]
           ∧ Auth.fresh st' = S (Auth.fresh st)
           ∧ Auth.session st' = Auth.mkSession (Some (Auth.fresh st)) (Some username)).
Proof.
  destruct st as [us n rs d c s].
  unfold Auth.register, Auth.try_catch, Auth.registerSchema_parse.
  destruct b as [[username|] [email|] [password|]]; cbn -[Nat.leb];
    try by (auth_leaf; left).
  unfold mbind, Auth.A_bind, mret, Auth.A_ret, mthrow, Auth.A_throw.
  destruct (_ && _) eqn:Hschema; cbn -[Nat.leb]; [|by (auth_leaf; left)].
  apply andb_true_iff in Hschema as [[Hu He]%andb_true_iff Hp].
  apply Nat.leb_le in Hu, Hp.
  unfold Auth.findUserByUsername, Auth.findUserByEmail, Auth.createUser,
    Auth.hashPassword, Auth.insert_user, Auth.login_session, Auth.statement,
    Auth.gets, Auth.modify, mbind, Auth.A_bind, mret, Auth.A_ret, mthrow, Auth.A_throw.
  cbn -[Nat.leb].
  repeat auth_case; try by (auth_leaf; left).
  all: rewrite no_duplicate_user by assumption; cbn -[Nat.leb].
  all: auth_leaf; right; eexists _, _, _; by split_and!.
Qed.

(** The paths of [login]. *)
Lemma login_cases b st :
  ∃ r st', Auth.login bcrypt_compare b st = (Ok r, st')
    ∧ (Auth.rejections st = [] → Auth.rejections st' = [])
    ∧ Auth.users st' = Auth.users st
    ∧ ((Auth.status r ≠ 200 ∧ Auth.session st' = Auth.session st)
       ∨ ∃ username password u,
           Auth.username_field b = Some username
           ∧ Auth.password_field b = Some password
           ∧ List.find (λ u, String.eqb (User.username u) username) (Auth.users st)
             = Some u
           ∧ bcrypt_compare password (User.passwordHash u) = true
           ∧ r = Auth.mkRes 200 (Auth.UserInfo (User.id u) (User.username u)
                                   (User.email u))
           ∧ Auth.session st'
             = Auth.mkSession (Some (User.id u)) (Some (User.username u))).
Proof.
  destruct st as [us n rs d c s].
  unfold Auth.login, Auth.try_catch, Auth.loginSchema_parse.
  destruct b as [[username|] email [password|]]; cbn -[Nat.leb];
    try by (auth_leaf; split; [done|left]).
  unfold mbind, Auth.A_bind, mret, Auth.A_ret, mthrow, Auth.A_throw.
  destruct (_ && _) eqn:Hschema; cbn -[Nat.leb];
    [|by (auth_leaf; split; [done|left])].
  unfold Auth.findUserByUsername, Auth.verifyPassword, Auth.login_session,
    Auth.statement, Auth.gets, Auth.modify, mbind, Auth.A_bind, mret, Auth.A_ret,
    mthrow, Auth.A_throw.
  cbn -[Nat.leb].
  repeat auth_case; try by (auth_leaf; split; [done|left]).
  all: destruct (bcrypt_compare password _) eqn:Hmatch; cbn -[Nat.leb];
    try by (auth_leaf; split; [done|left]).
  all: auth_leaf; split; [done|right]; eexists _, _, _; by split_and!.
Qed.

(** X24.  A login is refused in one way only.  When no stored user of
    the given name has a hash the password compares to, the answer is
    401 with [Invalid credentials] and the state is untouched, whether
    the name is unknown or the password is wrong. *)
Theorem login_refusal_is_uniform username email password st :
  Auth.rejections st = [] →
  (1 ≤ String.length username)%nat →
  (1 ≤ String.length password)%nat →
  (∀ u, u ∈ Auth.users st → User.username u = username →
        bcrypt_compare password (User.passwordHash u) = false) →
  Auth.login bcrypt_compare (Auth.mkBody (Some username) email (Some password)) st
  = (Ok (Auth.mkRes 401 (Auth.Error "Invalid credentials")), st).
Proof.
  intros Hrs Hu Hp Hno. destruct st as [us n rs d c s]. simpl in *. subst rs.
  unfold Auth.login, Auth.try_catch, Auth.loginSchema_parse. cbn -[Nat.leb].
  apply Nat.leb_le in Hu, Hp. rewrite Hu, Hp. cbn -[Nat.leb].
  unfold Auth.findUserByUsername, Auth.verifyPassword, Auth.statement, Auth.gets,
    mbind, Auth.A_bind, mret, Auth.A_ret.
  cbn -[Nat.leb].
  destruct (find _ us) as [u|] eqn:Hfind; [|done].
  apply find_some in Hfind as [Hin Heq]. simpl in Heq.
  apply String.eqb_eq in Heq. apply list_elem_of_In in Hin.
  by rewrite (Hno u Hin Heq).
Qed.

(** X25.  No session without a verified password.  Whatever the body,
    the stored users and the database's failures, a login never changes
    the users; it changes the session only when it answers 200, and then
    the session is that of a stored user who bears the given name and
    whose hash the given password compares to. *)
Theorem session_needs_verified_password b st :
  ∃ r, (Auth.login bcrypt_compare b st).1 = Ok r
    ∧ Auth.users (Auth.login bcrypt_compare b st).2 = Auth.users st
    ∧ if Nat.eqb (Auth.status r) 200
      then ∃ u password,
             u ∈ Auth.users st
             ∧ Auth.username_field b = Some (User.username u)
             ∧ Auth.password_field b = Some password
             ∧ bcrypt_compare password (User.passwordHash u) = true
             ∧ Auth.session (Auth.login bcrypt_compare b st).2
               = Auth.mkSession (Some (User.id u)) (Some (User.username u))
      else Auth.session (Auth.login bcrypt_compare b st).2 = Auth.session st.
Proof.
  destruct (login_cases b st) as (r & st' & -> & _ & Hus & H). exists r. simpl.
  split; [done|]. split; [done|].
  destruct H as [[Hne Hs]|(username & password & u & Hu & Hp & Hfind & Hm & -> & Hs)].
  - apply Nat.eqb_neq in Hne. by rewrite Hne.
  - simpl. apply find_some in Hfind as [Hin Heq]. simpl in Heq.
    apply String.eqb_eq in Heq. subst username.
    exists u, password. split_and!; try done. by apply list_elem_of_In.
Qed.

(** X26.  Registration keeps the users table's unique constraints: when
    names and addresses are unique before a registration, they are
    unique after it, whatever it answers. *)
Theorem register_keeps_users_unique b st :
  unique_users (Auth.users st) →
  unique_users (Auth.users (Auth.register bcrypt_hash is_email b st).2).
Proof.
  intros [Hnames Hmails].
  destruct (register_cases b st) as (r & st' & -> & _ & H). simpl.
  destruct H as [(_ & -> & _)|(username & email & password & _ & _ & _ & _ & _ & _
                              & Hfu & Hfe & _ & -> & _)]; [done|].
  split; rewrite fmap_app; simpl; apply NoDup_app; split_and!; try done.
  - intros x Hx ->%list_elem_of_singleton. by apply (find_username_none _ _ Hfu).
  - apply NoDup_singleton.
  - intros x Hx ->%list_elem_of_singleton. by apply (find_email_none _ _ Hfe).
  - apply NoDup_singleton.
Qed.

(** X27.  A registration answered other than 201 creates no user, hands
    out no key and leaves the session alone.  One answered 201 appends
    exactly one user, under the next key, with the name and address of
    the body and the hash of its password under a fresh salt, and opens
    that user's session. *)
Theorem register_outcome b st :
  ∃ r, (Auth.register bcrypt_hash is_email b st).1 = Ok r
    ∧ let st' := (Auth.register bcrypt_hash is_email b st).2 in
      if Nat.eqb (Auth.status r) 201
      then ∃ username email password,
             Auth.username_field b = Some username
             ∧ Auth.email_field b = Some email
             ∧ Auth.password_field b = Some password
             ∧ Auth.users st'
               = Auth.users st
                 ++ [User.mk (Auth.fresh st) username email
                       (bcrypt_hash (Auth.draws st) password) (Auth.clock st)]
             ∧ Auth.fresh st' = S (Auth.fresh st)
             ∧ Auth.session st' = Auth.mkSession (Some (Auth.fresh st)) (Some username)
             ∧ r = Auth.mkRes 201 (Auth.UserInfo (Auth.fresh st) username email)
      else Auth.users st' = Auth.users st
           ∧ Auth.fresh st' = Auth.fresh st
           ∧ Auth.session st' = Auth.session st.
Proof.
  destruct (register_cases b st) as (r & st' & -> & _ & H). exists r. simpl.
  split; [done|].
  destruct H as [(Hne & H)|(username & email & password & Hu & He & Hp & _ & _ & _
                            & _ & _ & -> & Hus & Hf & Hs)].
  - apply Nat.eqb_neq in Hne. by rewrite Hne.
  - simpl. exists username, email, password. by split_and!.
Qed.

(** X28.  Registration and login fit together.  If comparison accepts
    every password against its own hash, then after a registration
    answered 201 and a logout, a login with the same name and password
    is answered 200, with the same user data, and opens the session of
    the registered user. *)
Theorem register_then_login b st r :
  (∀ n p, bcrypt_compare p (bcrypt_hash n p) = true) →
  Auth.rejections st = [] →
  (Auth.register bcrypt_hash is_email b st).1 = Ok r →
  Auth.status r = 201 →
  let st1 := (Auth.logout false (Auth.register bcrypt_hash is_email b st).2).2 in
  let again := Auth.login bcrypt_compare
                 (Auth.mkBody (Auth.username_field b) None (Auth.password_field b))
                 st1 in
  Auth.userId (Auth.session st1) = None
  ∧ again.1 = Ok (Auth.mkRes 200 (Auth.body r))
  ∧ Auth.userId (Auth.session again.2) = Some (Auth.fresh st).
Proof.
  intros Hbcrypt Hrs Hr H201 st1 again. subst again st1.
  destruct (register_cases b st) as (r' & st' & Hreg & Hrs' & H).
  rewrite Hreg in Hr |- *. simpl in Hr. injection Hr as ->.
  destruct H as [(Hne & _)|(username & email & password & Hu & He & Hp & Hlu & Hlp & _
                            & Hfu & _ & -> & Hus & _ & _)]; [done|].
  specialize (Hrs' Hrs). rewrite Hu, Hp.
  set (user := User.mk _ _ _ _ _) in Hus.
  destruct st' as [us' n' rs' d' c' s']. simpl in *. subst rs' us'.
  split; [done|].
  unfold Auth.login, Auth.try_catch, Auth.loginSchema_parse. cbn -[Nat.leb].
  assert ((1 <=? String.length username)%nat = true) as -> by (apply Nat.leb_le; lia).
  assert ((1 <=? String.length password)%nat = true) as -> by (apply Nat.leb_le; lia).
  cbn -[Nat.leb].
  unfold Auth.findUserByUsername, Auth.verifyPassword, Auth.login_session,
    Auth.statement, Auth.gets, Auth.modify, mbind, Auth.A_bind, mret, Auth.A_ret.
  cbn -[Nat.leb].
  assert (find (λ u, String.eqb (User.username u) username) (Auth.users st ++ [user])
          = Some user) as -> by exact (find_username_last (Auth.users st) user Hfu).
  simpl. by rewrite Hbcrypt.
Qed.

End AuthFacts.

Lemma protect_refuses path s :
  Auth.protect path s = Some (Auth.mkRes 401 (Auth.Error "Unauthorized"))
  ↔ Auth.userId s = None
    ∧ ∃ route rest, route ∈ Auth.protectedRoutes ∧ path = route +:+ rest.
Proof.
  unfold Auth.protect. destruct (existsb _ _) eqn:Hex.
  - apply existsb_exists in Hex as (route & Hin & [rest ->]%prefix_spec).
    apply list_elem_of_In in Hin.
    destruct (Auth.userId s); split; try done.
    + by intros [? _].
    + by eauto.
  - split; [done|]. intros (_ & route & rest & Hin & ->).
    apply not_true_iff_false in Hex. destruct Hex.
    apply existsb_exists. exists route. split; [by apply list_elem_of_In|].
    apply prefix_spec. by exists rest.
Qed.

(** X29.  The session check guards by prefix.  A request is refused,
    with 401 and [Unauthorized], exactly when its session has no user
    and its path starts with one of the protected routes; every other
    request is passed on; and no path under [/api/auth] is ever refused,
    so that logging in needs no session. *)
Theorem protect_guards_prefixes path s :
  (Auth.protect path s = Some (Auth.mkRes 401 (Auth.Error "Unauthorized"))
   ↔ Auth.userId s = None
     ∧ ∃ route rest, route ∈ Auth.protectedRoutes ∧ path = route +:+ rest)
  ∧ (Auth.protect path s = None
     ∨ Auth.protect path s = Some (Auth.mkRes 401 (Auth.Error "Unauthorized")))
  ∧ ∀ rest, Auth.protect ("/api/auth" +:+ rest) s = None.
Proof.
  split_and!.
  - apply protect_refuses.
  - unfold Auth.protect. destruct (existsb _ _), (Auth.userId s); auto.
  - intros rest. unfold Auth.protect.
    assert (existsb (λ route, String.prefix route ("/api/auth" +:+ rest))
              Auth.protectedRoutes = false) as ->; [|done].
    apply not_true_iff_false. intros (route & Hin & [r Hr]%prefix_spec)%existsb_exists.
    repeat rewrite string_app_cons in Hr. rewrite string_app_nil in Hr.
    simpl in Hin.
    repeat destruct Hin as [<-|Hin]; try done;
      repeat rewrite string_app_cons in Hr; discriminate.
Qed.

Section SessionFacts.

Variable bcrypt_compare : string → string → bool.

(** X30.  The session carries the login.  After a login answered 200,
    [/api/auth/me] reports the key and name of the user in the answer
    and no path is refused; after a logout that the session store
    completes, [/api/auth/me] answers 401, every protected path is
    refused again, and the users are as they were. *)
Theorem session_round_trip b st r :
  (Auth.login bcrypt_compare b st).1 = Ok r →
  Auth.status r = 200 →
  let st1 := (Auth.login bcrypt_compare b st).2 in
  let st2 := (Auth.logout false st1).2 in
  (∃ id name email,
      Auth.body r = Auth.UserInfo id name email
      ∧ (Auth.me st1).1 = Ok (Auth.mkRes 200 (Auth.Me id (Some name))))
  ∧ (∀ path, Auth.protect path (Auth.session st1) = None)
  ∧ (Auth.me st2).1 = Ok (Auth.mkRes 401 (Auth.Error "Not authenticated"))
  ∧ (∀ route rest, route ∈ Auth.protectedRoutes →
       Auth.protect (route +:+ rest) (Auth.session st2)
       = Some (Auth.mkRes 401 (Auth.Error "Unauthorized")))
  ∧ Auth.users st2 = Auth.users st.
Proof.
  intros Hr H200 st1 st2. subst st2 st1.
  destruct (login_cases bcrypt_compare b st) as (r' & st' & Hlogin & _ & Hus & H).
  rewrite Hlogin in Hr |- *. simpl in Hr. injection Hr as ->.
  destruct H as [[Hne _]|(username & password & u & _ & _ & _ & _ & -> & Hs)]; [done|].
  simpl. split_and!.
  - exists (User.id u), (User.username u), (User.email u). split; [done|].
    unfold Auth.me, Auth.gets, mbind, Auth.A_bind. by rewrite Hs.
  - intros path. unfold Auth.protect. rewrite Hs.
    by destruct (existsb _ Auth.protectedRoutes).
  - done.
  - intros route rest Hin.
    apply (protect_refuses (route +:+ rest) (Auth.mkSession None None)).
    split; [done|]. by exists route, rest.
  - done.
Qed.

End SessionFacts.

(** X24, witness: a wrong password for a stored user. *)
Lemma login_refusal_is_uniform_witness :
  let st := AuthSample.state [AuthSample.alice] in
  Auth.rejections st = []
  ∧ Auth.login AuthSample.bcrypt_compare
      (Auth.mkBody (Some "alice") None (Some "wrong")) st
    = (Ok (Auth.mkRes 401 (Auth.Error "Invalid credentials")), st)
  ∧ Auth.login AuthSample.bcrypt_compare
      (Auth.mkBody (Some "mallory") None (Some "wrong")) st
    = (Ok (Auth.mkRes 401 (Auth.Error "Invalid credentials")), st).
Proof.
  intros st. split; [reflexivity|]. split.
  - apply (login_refusal_is_uniform AuthSample.bcrypt_compare "alice" None "wrong" st);
      [reflexivity|simpl; lia|simpl; lia|].
    intros u ->%list_elem_of_singleton _. reflexivity.
  - apply (login_refusal_is_uniform AuthSample.bcrypt_compare "mallory" None "wrong" st);
      [reflexivity|simpl; lia|simpl; lia|].
    intros u ->%list_elem_of_singleton Hname. discriminate Hname.
Defined.

(** X26, witness: a second user registers beside the first. *)
Lemma register_keeps_users_unique_witness :
  let st := AuthSample.state [AuthSample.alice] in
  let b := Auth.mkBody (Some "bob") (Some "bob@example.com") (Some "hunter22") in
  unique_users (Auth.users st)
  ∧ unique_users
      (Auth.users (Auth.register AuthSample.bcrypt_hash AuthSample.is_email b st).2).
Proof.
  intros st b.
  assert (unique_users (Auth.users st)) as H by (split; apply NoDup_singleton).
  split; [exact H|].
  exact (register_keeps_users_unique AuthSample.bcrypt_hash AuthSample.is_email b st H).
Defined.

(** X28, witness: the stand-in hash, a registration and the login that
    follows it. *)
Lemma register_then_login_witness :
  let st := AuthSample.state [AuthSample.alice] in
  let b := Auth.mkBody (Some "bob") (Some "bob@example.com") (Some "hunter22") in
  let r := Auth.mkRes 201 (Auth.UserInfo 2 "bob" "bob@example.com") in
  let st1 := (Auth.logout false
                (Auth.register AuthSample.bcrypt_hash AuthSample.is_email b st).2).2 in
  (∀ n p, AuthSample.bcrypt_compare p (AuthSample.bcrypt_hash n p) = true)
  ∧ (Auth.register AuthSample.bcrypt_hash AuthSample.is_email b st).1 = Ok r
  ∧ (Auth.login AuthSample.bcrypt_compare
       (Auth.mkBody (Some "bob") None (Some "hunter22")) st1).1
    = Ok (Auth.mkRes 200 (Auth.UserInfo 2 "bob" "bob@example.com")).
Proof.
  intros st b r st1.
  assert (∀ n p, AuthSample.bcrypt_compare p (AuthSample.bcrypt_hash n p) = true) as H
    by (intros n p; apply String.eqb_refl).
  split; [exact H|]. split; [reflexivity|].
  exact (proj1 (proj2 (register_then_login AuthSample.bcrypt_hash
                         AuthSample.bcrypt_compare AuthSample.is_email b st r
                         H eq_refl eq_refl eq_refl))).
Defined.

(** X30, witness: the stored user logs in and out. *)
Lemma session_round_trip_witness :
  let st := AuthSample.state [AuthSample.alice] in
  let b := Auth.mkBody (Some "alice") None (Some "correct horse") in
  let r := Auth.mkRes 200 (Auth.UserInfo 1 "alice" "alice@example.com") in
  let st1 := (Auth.login AuthSample.bcrypt_compare b st).2 in
  (Auth.login AuthSample.bcrypt_compare b st).1 = Ok r
  ∧ Auth.status r = 200
  ∧ Auth.protect "/api/logs/recent" (Auth.session st1) = None
  ∧ (Auth.me (Auth.logout false st1).2).1
    = Ok (Auth.mkRes 401 (Auth.Error "Not authenticated")).
Proof.
  intros st b r st1. split; [reflexivity|]. split; [reflexivity|].
  destruct (session_round_trip AuthSample.bcrypt_compare b st r eq_refl eq_refl)
    as (_ & Hpass & Hme & _).
  split; [exact (Hpass "/api/logs/recent")|exact Hme].
Defined.
